(** * awesom.utilities: a shallow embedding and its verified properties

    The development follows [src/awesom/utilities.py].  Conventions:

    - Python [int] values are [Z] (keys, unit indices) or [nat] where the
      code only ever counts with them ([range], [enumerate], array extents).
    - Where the code computes with floating-point numbers and what is
      stated depends on the computed values (the schedules, the scaler, the
      square-root guard of ['stm']), they are IEEE binary64 values,
      [float64], with the operations of the machine: every operation
      rounds, and infinities, signed zeros and NaN are there.
    - Where the code only stores, compares and passes floating-point numbers
      on (best matching units, the order of singular values, the bounds of
      random draws), they are elements of an ordered field, [float], taken
      to be the rationals [Qc]; NaN is outside that part of the model.
    - A raised exception is the [Raise] branch of [result].
    - NumPy arrays are a shape together with the row-major buffer
      ([ndarray]); arrays that the code only uses as two-dimensional tables
      are lists of rows ([matrix]).
    - SciPy's and NumPy's numerical services (pairwise distances, SVD,
      random draws, [log], [exp]) are collaborators, taken as parameters. *)

From Stdlib Require Import ZArith QArith Qcanon List Lia Floats.
From stdpp Require Import base option list numbers sorting gmap sets.

Local Open Scope Z_scope.

(* Decimal literals are read as Python reads them: the nearest binary64. *)
#[local] Set Warnings "-inexact-float".

(** ** Exceptions and results *)

Inductive exn : Type :=
| ValueError
| KeyError
| IndexError
| AxisError
| ZeroDivisionError
| OverflowError
| TypeError.

Inductive result (A : Type) : Type :=
| Ok (a : A)
| Raise (e : exn).
Arguments Ok {A} a.
Arguments Raise {A} e.

(** Sequencing: the first exception raised propagates.  The instances give
    the [x ← r; k] notation. *)
#[global] Instance result_ret : MRet result := fun A a => Ok a.
#[global] Instance result_bind : MBind result := fun A B k r =>
  match r with
  | Ok a => k a
  | Raise e => Raise e
  end.

(** ** Binary64 *)

Abbreviation float64 := PrimFloat.float.

(** The float nearest to an integer (ties to even), as the conversion of a
    Python [int] or of a 64-bit NumPy integer gives it. *)
Definition float64_of_Z (z : Z) : float64 :=
  SF2Prim (binary_normalize prec emax z 0 false).

(** The least magnitude that rounds beyond the largest float. *)
Definition float_int_bound : Z := 2 ^ 1024 - 2 ^ 970.

(** An [int] operand of a float operation: Python converts it first, and
    refuses an [int] too large for a float. *)
Definition py_float (z : Z) : result float64 :=
  if bool_decide (Z.abs z < float_int_bound) then Ok (float64_of_Z z)
  else Raise OverflowError.

(** [int(x)]: truncation towards zero. *)
Definition int_of_float (x : float64) : result Z :=
  match Prim2SF x with
  | S754_zero _ => Ok 0
  | S754_finite s m e => Ok (cond_Zopp s (Z.shiftl (Z.pos m) e))
  | S754_infinity _ => Raise OverflowError
  | S754_nan => Raise ValueError
  end.

(** ** Arrays *)

Abbreviation float := Qc.

Abbreviation matrix A := (list (list A)).

(** [sum] of floats. *)
Definition fsum (l : list float) : float := foldr Qcplus 0%Qc l.

Definition float_of_nat (k : nat) : float := Q2Qc (inject_Z (Z.of_nat k)).

Record ndarray (A : Type) : Type := NdArray {
  shape : list nat;
  data : list A
}.
Arguments NdArray {A} shape data.
Arguments shape {A} _.
Arguments data {A} _.

Definition ndim {A} (a : ndarray A) : nat := length (shape a).

Definition size_of (sh : list nat) : nat := foldr Nat.mul 1%nat sh.

(** An array is well formed when its buffer has one cell per index. *)
Definition wf_array {A} (a : ndarray A) : Prop :=
  length (data a) = size_of (shape a).

(** ** GridIndexer *)

(** [itertools.product(range(n_rows), range(n_cols))]: the outer loop runs
    over the first range. *)
Definition grid_iter (n_rows n_cols : nat) : list (nat * nat) :=
  r ← seq 0 n_rows; c ← seq 0 n_cols; [(r, c)].

(** [np.array] applied to a list of pairs: an [(n, 2)] array, except that
    the empty list gives the one-dimensional empty array of shape [(0,)]. *)
Definition np_array_of_pairs (l : list (nat * nat)) : ndarray nat :=
  match l with
  | [] => NdArray [0%nat] []
  | _ => NdArray [length l; 2%nat] (p ← l; [p.1; p.2])
  end.

Definition grid (n_rows n_cols : nat) : ndarray nat :=
  np_array_of_pairs (grid_iter n_rows n_cols).

(** Row [i] of a two-dimensional array with [c] columns. *)
Definition row_at {A} (c : nat) (buf : list A) (i : nat) : list A :=
  take c (drop (i * c) buf).

Definition rows {A} (a : ndarray A) : matrix A :=
  match shape a with
  | [r; c] => (fun i => row_at c (data a) i) <$> seq 0 r
  | _ => []
  end.

(** ** ScheduleGenerator *)

(** The values [step] may hold: the signature says [float], the guard asks
    for an [int]. *)
Inductive pynum : Type :=
| PyInt (z : Z)
| PyFloat (x : float64).

Definition pynum_lt_one (n : pynum) : bool :=
  match n with
  | PyInt z => bool_decide (z < 1)
  | PyFloat x => (x <? 1)%float
  end.

Definition isinstance_int (n : pynum) : bool :=
  match n with
  | PyInt _ => true
  | PyFloat _ => false
  end.

Definition pynum_eq_one (n : pynum) : bool :=
  match n with
  | PyInt z => bool_decide (z = 1)
  | PyFloat x => (x =? 1)%float
  end.

(** [step - 1], its value as the divisor of a float, and [range(step)];
    all three are reached with an [int] only. *)
Definition pynum_pred (n : pynum) : pynum :=
  match n with
  | PyInt z => PyInt (z - 1)
  | PyFloat x => PyFloat (x - 1)%float
  end.

Definition pynum_as_float (n : pynum) : result float64 :=
  match n with
  | PyInt z => py_float z
  | PyFloat x => Ok x
  end.

Definition pynum_range (n : pynum) : nat :=
  match n with
  | PyInt z => Z.to_nat z
  | PyFloat _ => 0%nat
  end.

(** Both schedule functions contain [yield], which makes them generator
    functions: a call binds the arguments and returns a generator object
    without running any statement of the body, the [step] guard included.
    The body runs, up to the next [yield], each time the generator is
    advanced.  The states are the points at which the body can be suspended:
    not started, after the single [yield start], inside the [for] loop
    about to produce the value of index [stp], and finished. *)
Inductive schedule_kind : Type := Linear | Expo.

Inductive generator : Type :=
| Created (kind : schedule_kind) (start : float64) (step : pynum)
          (stop : float64)
| AfterSingle
| InLoop (kind : schedule_kind) (start coef : float64) (stp n : nat)
| Finished.

Inductive event : Type :=
| Yield (x : float64)
| StopIteration
| Raised (e : exn).

(** What calling a function gives its caller. *)
Inductive call_outcome (A : Type) : Type :=
| Returns (a : A)
| Throws (e : exn).
Arguments Returns {A} a.
Arguments Throws {A} e.

Section Schedule.
(** [np.log] and [np.exp]. *)
Variables np_log np_exp : float64 -> float64.

Definition decrease_linear (start : float64) (step : pynum) (stop : float64)
  : call_outcome generator :=
  Returns (Created Linear start step stop).

Definition decrease_expo (start : float64) (step : pynum) (stop : float64)
  : call_outcome generator :=
  Returns (Created Expo start step stop).

(** [coef].  Dividing a Python float by zero raises [ZeroDivisionError]:
    [stop / start] does so when [start] is zero.  The other divisor is the
    float of [step - 1], an [int] that is at least 1 here, so that division
    cannot; the quotient of [np.log]'s result is NumPy's in any case. *)
Definition schedule_coef (kind : schedule_kind) (start : float64)
    (step : pynum) (stop : float64) : result float64 :=
  match kind with
  | Linear =>
      d ← pynum_as_float (pynum_pred step);
      Ok ((stop - start) / d)%float
  | Expo =>
      if (start =? 0)%float then Raise ZeroDivisionError
      else
        d ← pynum_as_float (pynum_pred step);
        Ok (np_log (stop / start) / d)%float
  end.

(** [coef * stp + start] and [start * np.exp(coef*stp)]; the loop index is
    an [int], converted for the product. *)
Definition schedule_value (kind : schedule_kind) (start coef : float64)
    (stp : nat) : result float64 :=
  k ← py_float (Z.of_nat stp);
  match kind with
  | Linear => Ok (coef * k + start)%float
  | Expo => Ok (start * np_exp (coef * k))%float
  end.

(** One turn of the [for stp in range(step)] loop. *)
Definition loop_turn (kind : schedule_kind) (start coef : float64)
    (stp n : nat) : event * generator :=
  if bool_decide (stp < n)%nat
  then match schedule_value kind start coef stp with
       | Ok x => (Yield x, InLoop kind start coef (S stp) n)
       | Raise e => (Raised e, Finished)
       end
  else (StopIteration, Finished).

(** [next(g)]: run the body from where it was suspended. *)
Definition next (g : generator) : event * generator :=
  match g with
  | Created kind start step stop =>
      if pynum_lt_one step || negb (isinstance_int step)
      then (Raised ValueError, Finished)
      else if pynum_eq_one step
      then (Yield start, AfterSingle)
      else match schedule_coef kind start step stop with
           | Ok coef => loop_turn kind start coef 0 (pynum_range step)
           | Raise e => (Raised e, Finished)
           end
  | AfterSingle => (StopIteration, Finished)
  | InLoop kind start coef stp n => loop_turn kind start coef stp n
  | Finished => (StopIteration, Finished)
  end.

(** [list(g)]: advance until the generator stops or raises; [None] when
    [fuel] turns were not enough. *)
Fixpoint drain (fuel : nat) (g : generator)
  : option (result (list float64)) :=
  match fuel with
  | O => None
  | S fuel' =>
      match next g with
      | (Yield x, g') =>
          match drain fuel' g' with
          | Some (Ok l) => Some (Ok (x :: l))
          | other => other
          end
      | (StopIteration, _) => Some (Ok [])
      | (Raised e, _) => Some (Raise e)
      end
  end.

Definition list_of_call (fuel : nat) (c : call_outcome generator)
  : option (result (list float64)) :=
  match c with
  | Returns g => drain fuel g
  | Throws e => Some (Raise e)
  end.
End Schedule.

(** The terms of the two schedules, as the loop computes them. *)
Definition linear_term (start coef : float64) (k : nat) : float64 :=
  (coef * float64_of_Z (Z.of_nat k) + start)%float.

Definition expo_term (np_exp : float64 -> float64) (start coef : float64)
    (k : nat) : float64 :=
  (start * np_exp (coef * float64_of_Z (Z.of_nat k)))%float.

(** ** BestMatchFinder *)

Definition nrows {A} (a : ndarray A) : nat := default 0%nat (head (shape a)).

(** Column [j] of a two-dimensional array. *)
Definition column {A} (a : ndarray A) (j : nat) : list A :=
  match shape a with
  | [r; c] => omap (fun i => data a !! (i * c + j)%nat) (seq 0 r)
  | _ => []
  end.

(** [np.atleast_2d]. *)
Definition atleast_2d {A} (a : ndarray A) : ndarray A :=
  match shape a with
  | [] => NdArray [1%nat; 1%nat] (data a)
  | [k] => NdArray [1%nat; k] (data a)
  | _ => a
  end.


(** NumPy's scan for the minimum of a non-empty run: the candidate changes
    only when a strictly smaller value is met, so the first of several equal
    minima is kept.  [i] is the position of the head of [l]. *)
Fixpoint argmin_scan (best_i : nat) (best : float) (i : nat) (l : list float)
  : nat :=
  match l with
  | [] => best_i
  | x :: l' =>
      if bool_decide (x < best)%Qc
      then argmin_scan i x (S i) l'
      else argmin_scan best_i best (S i) l'
  end.

Fixpoint min_scan (best : float) (l : list float) : float :=
  match l with
  | [] => best
  | x :: l' =>
      if bool_decide (x < best)%Qc then min_scan x l' else min_scan best l'
  end.

Definition list_argmin (l : list float) : result nat :=
  match l with
  | [] => Raise ValueError
  | x :: l' => Ok (argmin_scan 0 x 1 l')
  end.

Definition list_min (l : list float) : result float :=
  match l with
  | [] => Raise ValueError
  | x :: l' => Ok (min_scan x l')
  end.

(** [r] is the first position of the least value [v] of [L]. *)
Definition first_min (L : list float) (r : nat) (v : float) : Prop :=
  L !! r = Some v
  ∧ (∀ j y, L !! j = Some y → (v ≤ y)%Qc)
  ∧ (∀ j y, (j < r)%nat → L !! j = Some y → (v < y)%Qc).

(** Reduce every column of a two-dimensional array ([axis=0]); an empty
    reduction axis is an error whatever the other extent is. *)
Definition reduce_axis0 {B} (f : list float -> result B) (a : ndarray float)
  : result (ndarray B) :=
  match shape a with
  | [r; c] =>
      if bool_decide (r = 0%nat) then Raise ValueError
      else l ← mapM (fun j => f (column a j)) (seq 0 c); Ok (NdArray [c] l)
  | _ => Raise AxisError
  end.

Definition argmin_axis0 : ndarray float -> result (ndarray nat) :=
  reduce_axis0 list_argmin.

Definition min_axis0 : ndarray float -> result (ndarray float) :=
  reduce_axis0 list_min.

Section BestMatch.
(** The distance function that the [metric] argument selects. *)
Variable metric : list float -> list float -> float.

(** [scipy.spatial.distance.cdist(XA, XB, metric)] on two-dimensional
    arguments: entry [(i, j)] is the distance between row [i] of [XA] and
    row [j] of [XB]. *)
Definition cdist (XA XB : ndarray float) : ndarray float :=
  NdArray [nrows XA; nrows XB]
          (u ← rows XA; v ← rows XB; [metric u v]).

Definition best_match (weights inp : ndarray float)
  : result (ndarray nat * ndarray float) :=
  if bool_decide (ndim weights ≠ 2%nat) then Raise ValueError
  else
    match last (shape weights), last (shape inp) with
    | Some fw, Some fi =>
        if bool_decide (fw ≠ fi) then Raise ValueError
        else
          let inp := atleast_2d inp in
          if bool_decide (2 < ndim inp)%nat then Raise ValueError
          else
            let dists := cdist weights inp in
            idx ← argmin_axis0 dists;
            err ← min_axis0 dists;
            Ok (idx, err)
    | _, _ => Raise IndexError
    end.
End BestMatch.

(** One of SciPy's metrics that stays within the rationals. *)
Definition Qcabs (x : float) : float :=
  if bool_decide (x < 0)%Qc then (- x)%Qc else x.

Definition cityblock (u v : list float) : float :=
  fsum (zip_with (fun a b => Qcabs (a - b)%Qc) u v).

(** ** WeightInitializer *)

(** [SomDims]: [(n_rows, n_cols, n_feats)]. *)
Abbreviation SomDims := (nat * nat * nat)%type.

(** The process-wide random source, made explicit: every draw takes the
    state of the source and returns the next one. *)
Class RandomSource (S : Type) : Type := {
  (** [np.random.randint(low, high, (r, c))] *)
  randint : Z -> Z -> nat -> nat -> S -> matrix Z * S;
  (** [stats.dirichlet(alpha).rvs(size)] *)
  dirichlet_rvs : list float -> nat -> S -> matrix float * S
}.

(** [np.hstack] of two-dimensional blocks: rows are joined side by side.
    No block at all, or blocks of different heights, is an error. *)
Definition hstack {A} (blocks : list (matrix A)) : result (matrix A) :=
  match blocks with
  | [] => Raise ValueError
  | b :: bs =>
      if forallb (fun m => Nat.eqb (length m) (length b)) bs
      then Ok (foldl (zip_with app) b bs)
      else Raise ValueError
  end.

(** [np.sqrt] of a Python [int]: the correctly rounded root of the float
    nearest to it.  NumPy has no square root for an [int] beyond 64 bits. *)
Definition np_sqrt_int (n : Z) : result float64 :=
  if bool_decide (n < 2 ^ 64) then Ok (PrimFloat.sqrt (float64_of_Z n))
  else Raise TypeError.

(** The number of states of ['stm']: the root of [n_feats], refused when
    [n_states - int(n_states)] is not zero, and truncated otherwise. *)
Definition n_states_of (n_feats : Z) : result Z :=
  n_states ← np_sqrt_int n_feats;
  k ← int_of_float n_states;
  if negb (n_states - float64_of_Z k =? 0)%float then Raise ValueError
  else Ok k.






Definition float_of_Z (z : Z) : float := Q2Qc (inject_Z z).

Section Initializers.
Context {S : Type} `{RandomSource S}.

(** [[stats.dirichlet(a).rvs(size=n_units) for a in alpha]] *)
Fixpoint draw_blocks (alpha : matrix Z) (n_units : nat) (s : S)
  : list (matrix float) * S :=
  match alpha with
  | [] => ([], s)
  | a :: rest =>
      let '(m, s1) := dirichlet_rvs (float_of_Z <$> a) n_units s in
      let '(ms, s2) := draw_blocks rest n_units s1 in
      (m :: ms, s2)
  end.

Definition sample_stm (dims : SomDims) (data : option (ndarray float))
    (s : S) : result (matrix float) * S :=
  let '(n_rows, n_cols, n_feats) := dims in
  match n_states_of (Z.of_nat n_feats) with
  | Raise e => (Raise e, s)
  | Ok k =>
      let n_states := Z.to_nat k in
      let n_units := (n_rows * n_cols)%nat in
      let '(alpha, s1) := randint 1 10 n_states n_states s in
      let '(blocks, s2) := draw_blocks alpha n_units s1 in
      (hstack blocks, s2)
  end.

Definition sample_hist (dims : SomDims) (data : option (ndarray float))
    (s : S) : result (matrix float) * S :=
  let '(n_rows, n_cols, n_feats) := dims in
  let '(m, s1) := dirichlet_rvs (replicate n_feats 1%Qc)
                                (n_rows * n_cols)%nat s in
  (Ok m, s1).
End Initializers.

(** What the initializers rely on from the random source: [randint] fills
    the requested shape with integers of [[low, high)], and a Dirichlet draw
    with positive concentrations gives [size] rows, one entry per
    concentration, each row summing to 1. *)
Definition randint_contract {S} `{RandomSource S} : Prop :=
  ∀ low high r c s, low < high →
    length (randint low high r c s).1 = r
    ∧ Forall (fun row => length row = c ∧ Forall (fun z => low ≤ z < high) row)
             (randint low high r c s).1.

Definition dirichlet_contract {S} `{RandomSource S} : Prop :=
  ∀ alpha size s, alpha ≠ [] → Forall (fun a => (0 < a)%Qc) alpha →
    length (dirichlet_rvs alpha size s).1 = size
    ∧ Forall (fun row => length row = length alpha
                         ∧ fsum row = 1%Qc)
             (dirichlet_rvs alpha size s).1.

(** A random source that replays a given table of integer draws and keeps
    the concentration vectors it was asked to sample from.  Its Dirichlet
    draws put all the mass on the first category. *)
Record replay : Type := Replay {
  draws : nat -> nat -> Z;
  asked : list (list float)
}.

Definition clamp (low high z : Z) : Z :=
  if bool_decide (low ≤ z < high) then z else low.

Definition one_hot (n : nat) : list float :=
  match n with
  | O => []
  | S k => 1%Qc :: replicate k 0%Qc
  end.

#[global] Instance replay_source : RandomSource replay := {
  randint low high r c s :=
    ((fun i => (fun j => clamp low high (draws s i j)) <$> seq 0 c)
       <$> seq 0 r, s);
  dirichlet_rvs alpha size s :=
    (replicate size (one_hot (length alpha)),
     Replay (draws s) (asked s ++ [alpha]))
}.

(** A table of draws whose diagonal entries are the smallest. *)
Definition low_diagonal (i j : nat) : Z :=
  if bool_decide (i = j) then 1 else 5.



(** ** Distributor *)

(** [{i: [] for i in range(n_units)}] *)
Definition empty_units (n_units : Z) : gmap Z (list nat) :=
  list_to_map ((fun i => (i, [])) <$> seqZ 0 n_units).

(** The loop over [enumerate(bmu_idx)], from position [data_idx] on.
    Indexing the dictionary with a missing key raises [KeyError]. *)
Fixpoint distribute_loop (unit_matches : gmap Z (list nat)) (data_idx : nat)
    (bmu_idx : list Z) : result (gmap Z (list nat)) :=
  match bmu_idx with
  | [] => Ok unit_matches
  | bmu :: rest =>
      match unit_matches !! bmu with
      | None => Raise KeyError
      | Some matches =>
          distribute_loop (<[bmu := matches ++ [data_idx]]> unit_matches)
                          (S data_idx) rest
      end
  end.

Definition distribute (bmu_idx : list Z) (n_units : Z)
  : result (gmap Z (list nat)) :=
  distribute_loop (empty_units n_units) 0 bmu_idx.

(** The positions at which [k] occurs in [l], in increasing order. *)
Definition positions (k : Z) (l : list Z) : list nat :=
  filter (fun i => l !! i = Some k) (seq 0 (length l)).

(** The positions of [k] in [l], counted from [d]: the loop's view of
    [positions]. *)
Fixpoint occurrences (d : nat) (k : Z) (l : list Z) : list nat :=
  match l with
  | [] => []
  | b :: r => (if decide (b = k) then [d] else []) ++ occurrences (S d) k r
  end.

(** ** PCAComputer *)

Definition dot (u v : list float) : float :=
  fsum (zip_with Qcmult u v).

(** [m.mean(axis=0)] of a table of rows. *)
Definition mean_axis0 (m : matrix float) : list float :=
  match m with
  | [] => []
  | r :: _ =>
      (fun j => (fsum (omap (fun row => row !! j) m)
                 / float_of_nat (length m))%Qc) <$> seq 0 (length r)
  end.

(** [m - v], the row [v] broadcast over the rows of [m]. *)
Definition sub_row (m : matrix float) (v : list float) : matrix float :=
  (fun row => zip_with Qcminus row v) <$> m.


(** [a @ b.T] *)
Definition matmul_transposed (a b : matrix float) : matrix float :=
  (fun u => (fun v => dot u v) <$> b) <$> a.

(** [l[idx]] with an index array: out of range is an [IndexError]. *)
Definition take_indices {A} (l : list A) (idx : list nat) : result (list A) :=
  mapM (fun i => match l !! i with
                 | Some x => Ok x
                 | None => Raise IndexError
                 end) idx.

Section PCA.
(** [np.linalg.svd]: left vectors, singular values, right vectors. *)
Variable svd : matrix float -> matrix float * list float * matrix float.
(** [ndarray.argsort] with its default algorithm. *)
Variable argsort : list float -> list nat.

(** [np.flip(vals.argsort())[:n_comps]] *)
Definition ord_idx (vals : list float) (n_comps : nat) : list nat :=
  take n_comps (reverse (argsort vals)).

Definition pca (data : matrix float) (n_comps : nat)
  : result (list float * matrix float * matrix float) :=
  let data_centered := sub_row data (mean_axis0 data) in
  let '(_, vals, vects) := svd data_centered in
  let ord := ord_idx vals n_comps in
  vals' ← take_indices vals ord;
  vects' ← take_indices vects ord;
  Ok (vals', vects', matmul_transposed data_centered vects').
End PCA.

(** An argsort by insertion: each index is put behind the indices whose
    value is not greater, so equal values keep their native order.  This is
    what the default algorithm does on short arrays; the order of ties is
    not otherwise promised by NumPy. *)
Fixpoint insert_by (vals : list float) (i : nat) (sorted : list nat)
  : list nat :=
  match sorted with
  | [] => [i]
  | j :: rest =>
      if bool_decide (default 0%Qc (vals !! i) < default 0%Qc (vals !! j))%Qc
      then i :: j :: rest
      else j :: insert_by vals i rest
  end.

Definition insertion_argsort (vals : list float) : list nat :=
  foldr (insert_by vals) [] (reverse (seq 0 (length vals))).

(** The tie rule of the specification: of two selected positions holding
    the same value, the one that comes first in the native order is
    returned first. *)
Definition ties_in_native_order (vals : list float) (idx : list nat) : Prop :=
  ∀ p q i j, (p < q)%nat → idx !! p = Some i → idx !! q = Some j →
             vals !! i = vals !! j → (i < j)%nat.

(** [a] lists indices by non-decreasing value. *)
Definition ascending_by (vals : list float) (a : list nat) : Prop :=
  ∀ p q i j x y, (p < q)%nat → a !! p = Some i → a !! q = Some j →
                 vals !! i = Some x → vals !! j = Some y → (x ≤ y)%Qc.

(** Four points at the corners of a square: centred already, and with the
    two singular values equal. *)
Definition square_data : matrix float :=
  [[1%Qc; 1%Qc]; [1%Qc; (-1)%Qc]; [(-1)%Qc; 1%Qc]; [(-1)%Qc; (-1)%Qc]].

(** A singular value decomposition of [square_data]: [u] is the data
    halved, both singular values are 2 and the right vectors are the
    canonical basis. *)
Definition svd_of_square (m : matrix float)
  : matrix float * list float * matrix float :=
  ((fun r : list float => (fun x : float => x / (1 + 1))%Qc <$> r) <$> m,
   [(1 + 1)%Qc; (1 + 1)%Qc],
   [[1%Qc; 0%Qc]; [0%Qc; 1%Qc]]).

(** ** Scaler *)

(** Row-major offset of a multi-index, and back. *)
Fixpoint ravel (sh idx : list nat) : nat :=
  match sh, idx with
  | _ :: sh', i :: idx' => (i * size_of sh' + ravel sh' idx')%nat
  | _, _ => 0%nat
  end.

Fixpoint unravel (sh : list nat) (k : nat) : list nat :=
  match sh with
  | [] => []
  | _ :: sh' => (k / size_of sh')%nat :: unravel sh' (k mod size_of sh')%nat
  end.

Definition get (a : ndarray float64) (idx : list nat) : float64 :=
  default 0%float (data a !! ravel (shape a) idx).

(** The array of shape [sh] whose cell at [idx] holds [f idx]. *)
Definition build (sh : list nat) (f : list nat -> float64) : ndarray float64 :=
  NdArray sh ((fun k => f (unravel sh k)) <$> seq 0 (size_of sh)).

(** [idx] addresses a cell of an array of shape [sh]. *)
Definition valid_index (sh idx : list nat) : Prop :=
  Forall2 (fun i d => (i < d)%nat) idx sh.


(** The one-dimensional slice of [a] along [axis] that passes through
    [idx]. *)
Definition slice_along (a : ndarray float64) (axis : nat) (idx : list nat)
  : list float64 :=
  (fun i => get a (<[axis := i]> idx)) <$> seq 0 (default 0%nat (shape a !! axis)).
















(** ** WeightInitializer: the 'rnd' strategy *)

(** The least and the greatest value of a list. *)
Definition least (m : float) (l : list float) : Prop :=
  m ∈ l ∧ ∀ y, y ∈ l → (m ≤ y)%Qc.

Definition greatest (m : float) (l : list float) : Prop :=
  m ∈ l ∧ ∀ y, y ∈ l → (y ≤ m)%Qc.

(** [np.random.uniform(low, high, size)], a second service of the random
    source. *)
Class UniformSource (S : Type) : Type := {
  uniform : float -> float -> nat -> S -> list float * S
}.

(** What ['rnd'] relies on: [size] values, none outside [[low, high]]. *)
Definition uniform_contract {S} `{UniformSource S} : Prop :=
  ∀ low high size s, (low ≤ high)%Qc →
    length (uniform low high size s).1 = size
    ∧ Forall (fun x => (low ≤ x)%Qc ∧ (x ≤ high)%Qc)
             (uniform low high size s).1.

(** [m.min(axis=0)] and [m.max(axis=0)] of a table of rows; without any row
    there is nothing to reduce. *)
Definition table_reduce (f : list float -> result float) (m : matrix float)
  : result (list float) :=
  match m with
  | [] => Raise ValueError
  | r :: _ =>
      mapM (fun j => f (omap (fun row : list float => row !! j) m))
           (seq 0 (length r))
  end.

Fixpoint max_scan (best : float) (l : list float) : float :=
  match l with
  | [] => best
  | x :: l' =>
      if bool_decide (best < x)%Qc then max_scan x l' else max_scan best l'
  end.

Definition list_max (l : list float) : result float :=
  match l with
  | [] => Raise ValueError
  | x :: l' => Ok (max_scan x l')
  end.

(** [np.column_stack] of one-dimensional arrays: array [j] becomes column
    [j].  No array at all, or arrays of different lengths, is an error. *)
Definition column_stack {A} (cols : list (list A)) : result (matrix A) :=
  match cols with
  | [] => Raise ValueError
  | c :: cs =>
      if forallb (fun x => Nat.eqb (length x) (length c)) cs
      then Ok ((fun i => omap (fun col : list A => col !! i) cols)
                 <$> seq 0 (length c))
      else Raise ValueError
  end.

Section SampleRnd.
Context {S : Type} `{RandomSource S} `{UniformSource S}.

(** [[np.random.uniform(dmin, dmax, n_units) for (dmin, dmax) in
    data_limits]]: a row that is not a pair cannot be unpacked. *)
Fixpoint draw_columns (data_limits : matrix float) (n_units : nat) (s : S)
  : result (list (list float)) * S :=
  match data_limits with
  | [] => (Ok [], s)
  | row :: rest =>
      match row with
      | [dmin; dmax] =>
          let '(col, s1) := uniform dmin dmax n_units s in
          let '(r, s2) := draw_columns rest n_units s1 in
          (cols ← r; Ok (col :: cols), s2)
      | _ => (Raise ValueError, s)
      end
  end.

Definition sample_rnd (dims : SomDims) (data : option (matrix float)) (s : S)
  : result (matrix float) * S :=
  let '(n_rows, n_cols, n_feats) := dims in
  let n_units := (n_rows * n_cols)%nat in
  match data with
  | Some d =>
      match (mins ← table_reduce list_min d;
             maxs ← table_reduce list_max d;
             Ok (zip_with (fun a b => [a; b]) mins maxs)) with
      | Raise e => (Raise e, s)
      | Ok data_limits =>
          let '(r, s1) := draw_columns data_limits n_units s in
          (weights ← r; column_stack weights, s1)
      end
  | None =>
      let '(drawn, s1) := randint (-10) 10 n_feats 2 s in
      let data_limits :=
        (fun row => float_of_Z <$> merge_sort Z.le row) <$> drawn in
      let '(r, s2) := draw_columns data_limits n_units s1 in
      (weights ← r; column_stack weights, s2)
  end.
End SampleRnd.

(** The replayed source draws, for [uniform], the lower bound throughout. *)
#[global] Instance replay_uniform : UniformSource replay := {
  uniform low high size s := (replicate size low, s)
}.

(** ** WeightInitializer: the 'pca' strategy *)







Section SamplePca.
Context {S : Type} `{RandomSource S}.
Variable svd : matrix float -> matrix float * list float * matrix float.
Variable argsort : list float -> list nat.

End SamplePca.

(** * Verified properties *)

(** ** Binary64 *)

(** The order of the floats: [<=?] is reflexive and total away from NaN,
    and transitive. *)
Lemma SFcompare_refl (x : spec_float) :
  x ≠ S754_nan → SFcompare x x = Some Eq.
Proof.
  destruct x as [s|s| |s m e]; intros Hx; try done.
  - by destruct s.
  - cbn. rewrite Z.compare_refl.
    change (PosDef.Pos.compare_cont Eq m m) with (Pos.compare m m).
    rewrite Pos.compare_refl. by destruct s.
Qed.

Lemma f64_not_nan (x : float64) :
  is_nan x = false ↔ Prim2SF x ≠ S754_nan.
Proof.
  unfold is_nan. rewrite FloatAxioms.eqb_spec. unfold SFeqb. split.
  - intros H Hn. rewrite Hn in H. done.
  - intros H. by rewrite SFcompare_refl.
Qed.






(** Zero in the four operations, for finite operands. *)
Lemma f64_finite_cases (x : float64) :
  is_finite x = true →
  (∃ s, Prim2SF x = S754_zero s) ∨ (∃ s m e, Prim2SF x = S754_finite s m e).
Proof.
  unfold is_finite. intros H. apply negb_true_iff, orb_false_iff in H as [Hn Hi].
  apply f64_not_nan in Hn. unfold is_infinity in Hi.
  rewrite FloatAxioms.eqb_spec, abs_spec in Hi.
  destruct (Prim2SF x) as [s|s| |s m e]; [left; by exists s| | |right; by exists s, m, e].
  - by vm_compute in Hi.
  - done.
Qed.

Lemma f64_is_finite_not_nan (x : float64) : is_finite x = true → is_nan x = false.
Proof.
  unfold is_finite. intros H. by apply negb_true_iff, orb_false_iff in H as [Hn _].
Qed.




Lemma f64_zero_mul_r (c k : float64) (s : bool) :
  is_finite c = true → Prim2SF k = S754_zero s →
  ∃ s', Prim2SF (c * k) = S754_zero s'.
Proof.
  intros [[sr Hr]|(sr & m & e & Hr)]%f64_finite_cases Hk;
    rewrite mul_spec, Hk, Hr; cbn; eauto.
Qed.

Lemma f64_zero_add_l (a y : float64) (s : bool) :
  Prim2SF a = S754_zero s → is_nan y = false → (a + y =? y)%float = true.
Proof.
  intros Ha Hy%f64_not_nan. rewrite FloatAxioms.eqb_spec, add_spec, Ha.
  unfold SFeqb.
  destruct (Prim2SF y) as [sy|sy| |sy my ey] eqn:E; try done.
  - by destruct s, sy.
  - cbn. by destruct sy.
  - unfold SF64add, SFadd. by rewrite SFcompare_refl.
Qed.


(** ** GridIndexer *)

Section GridFacts.
Implicit Types (n m a i : nat) (l : list (nat * nat)).

Lemma grid_block a (cs : list nat) : (c ← cs; [(a, c)]) = pair a <$> cs.
Proof.
  induction cs as [|c cs IH]; [done|].
  by rewrite bind_cons, fmap_cons, IH.
Qed.

Lemma grid_block_lookup a m i :
  (i < m)%nat → (pair a <$> seq 0 m) !! i = Some (a, i).
Proof.
  intros Hi. rewrite list_lookup_fmap, lookup_seq_lt by done. done.
Qed.

Lemma grid_iter_from_lookup a n m i :
  (i < n * m)%nat →
  (r ← seq a n; c ← seq 0 m; [(r, c)]) !! i
  = Some ((a + i / m)%nat, (i mod m)%nat).
Proof.
  revert a i. induction n as [|n IH]; intros a i Hi; [lia|].
  assert (Hm : (0 < m)%nat) by (destruct m; lia).
  cbn [seq]. rewrite bind_cons, grid_block.
  destruct (decide (i < m)%nat) as [Hlt|Hge].
  - rewrite lookup_app_l by (rewrite length_fmap, length_seq; done).
    rewrite grid_block_lookup by done.
    rewrite Nat.div_small, Nat.mod_small by done.
    do 2 f_equal. lia.
  - rewrite lookup_app_r by (rewrite length_fmap, length_seq; lia).
    rewrite length_fmap, length_seq.
    rewrite IH by lia.
    assert (Hi' : i = ((i - m) + 1 * m)%nat) by lia.
    assert (Hd : (i / m = (i - m) / m + 1)%nat)
      by (rewrite Hi' at 1; apply Nat.div_add; lia).
    assert (Hr : (i mod m = (i - m) mod m)%nat)
      by (rewrite Hi' at 1; apply Nat.Div0.mod_add).
    rewrite Hd, Hr. do 2 f_equal. lia.
Qed.

Lemma grid_iter_from_length a n m :
  length (r ← seq a n; c ← seq 0 m; [(r, c)]) = (n * m)%nat.
Proof.
  revert a. induction n as [|n IH]; intros a; [done|].
  cbn [seq]. rewrite bind_cons, length_app, IH, grid_block.
  rewrite length_fmap, length_seq. lia.
Qed.

Lemma grid_iter_length n m : length (grid_iter n m) = (n * m)%nat.
Proof. apply grid_iter_from_length. Qed.

Lemma grid_iter_lookup n m i :
  (i < n * m)%nat → grid_iter n m !! i = Some ((i / m)%nat, (i mod m)%nat).
Proof. intros Hi. unfold grid_iter. by rewrite grid_iter_from_lookup. Qed.

Lemma pairs_buffer_length l : length (p ← l; [p.1; p.2]) = (length l * 2)%nat.
Proof.
  induction l as [|p l IH]; [done|].
  rewrite bind_cons, length_app, IH. cbn. lia.
Qed.

Lemma pairs_buffer_row l i p :
  l !! i = Some p → row_at 2 (q ← l; [q.1; q.2]) i = [p.1; p.2].
Proof.
  revert i. induction l as [|q l IH]; intros i Hl; [done|].
  rewrite bind_cons. destruct i as [|i].
  - cbn in Hl. injection Hl as ->. done.
  - cbn in Hl. unfold row_at in *.
    replace (S i * 2)%nat with (S (S (i * 2))) by lia.
    cbn [app drop]. by apply IH.
Qed.

Lemma rows_of_pairs l :
  rows (np_array_of_pairs l) = (fun p => [p.1; p.2]) <$> l.
Proof.
  destruct l as [|p0 l0] eqn:El; [done|]. rewrite <- El.
  assert (Hsh : np_array_of_pairs l
                = NdArray [length l; 2%nat] (p ← l; [p.1; p.2]))
    by (by rewrite El).
  rewrite Hsh. unfold rows. cbn [shape data]. clear.
  apply list_eq. intros i. rewrite !list_lookup_fmap.
  destruct (decide (i < length l)%nat) as [Hi|Hi].
  - rewrite lookup_seq_lt by done. cbn.
    destruct (lookup_lt_is_Some_2 l i Hi) as [p Hp].
    rewrite Hp. cbn. f_equal. by apply pairs_buffer_row.
  - rewrite lookup_seq_ge by lia. rewrite lookup_ge_None_2 by lia. done.
Qed.
End GridFacts.

Lemma fmap_list_bind {A B C} (f : B → C) (g : A → list B) (l : list A) :
  f <$> (l ≫= g) = l ≫= (fun x => f <$> g x).
Proof.
  induction l as [|x l IH]; [done|].
  by rewrite !bind_cons, fmap_app, IH.
Qed.

Lemma div_mod_inj (m i j : nat) :
  (i / m = j / m)%nat → (i mod m = j mod m)%nat → i = j.
Proof.
  intros Hd Hr. rewrite (Nat.div_mod_eq i m), (Nat.div_mod_eq j m). congruence.
Qed.

(** C9. For [n_rows, n_cols >= 1], [grid n_rows n_cols] is an array of shape
    [(n_rows * n_cols, 2)] whose rows are the pairs [(row, col)] enumerated
    with the rows in the outer loop and the columns in the inner one: the
    row at flat index [i] is [(i / n_cols, i mod n_cols)], the rows are
    pairwise distinct, the first is [(0, 0)] and the last is
    [(n_rows - 1, n_cols - 1)]. *)
Theorem grid_row_major (n_rows n_cols : nat) :
  (1 ≤ n_rows)%nat → (1 ≤ n_cols)%nat →
  shape (grid n_rows n_cols) = [(n_rows * n_cols)%nat; 2%nat]
  ∧ wf_array (grid n_rows n_cols)
  ∧ rows (grid n_rows n_cols)
    = (r ← seq 0 n_rows; c ← seq 0 n_cols; [[r; c]])
  ∧ (∀ i, (i < n_rows * n_cols)%nat →
          rows (grid n_rows n_cols) !! i
          = Some [(i / n_cols)%nat; (i mod n_cols)%nat])
  ∧ NoDup (rows (grid n_rows n_cols))
  ∧ head (rows (grid n_rows n_cols)) = Some [0%nat; 0%nat]
  ∧ last (rows (grid n_rows n_cols))
    = Some [(n_rows - 1)%nat; (n_cols - 1)%nat].
Proof.
  intros Hr Hc.
  assert (Hpos : (0 < n_rows * n_cols)%nat) by nia.
  assert (Hlen := grid_iter_length n_rows n_cols).
  assert (Hlook : ∀ i, (i < n_rows * n_cols)%nat →
            rows (grid n_rows n_cols) !! i
            = Some [(i / n_cols)%nat; (i mod n_cols)%nat]).
  { intros i Hi. unfold grid. rewrite rows_of_pairs, list_lookup_fmap.
    by rewrite grid_iter_lookup. }
  assert (Hrl : length (rows (grid n_rows n_cols)) = (n_rows * n_cols)%nat).
  { unfold grid. by rewrite rows_of_pairs, length_fmap. }
  assert (Hgrid : grid n_rows n_cols
            = NdArray [length (grid_iter n_rows n_cols); 2%nat]
                      (p ← grid_iter n_rows n_cols; [p.1; p.2])).
  { unfold grid. destruct (grid_iter n_rows n_cols); [cbn in Hlen; lia|done]. }
  split_and!.
  - rewrite Hgrid. cbn. by rewrite Hlen.
  - rewrite Hgrid. unfold wf_array. cbn [data shape size_of foldr].
    rewrite pairs_buffer_length. lia.
  - unfold grid. rewrite rows_of_pairs. unfold grid_iter.
    rewrite fmap_list_bind. apply list_bind_ext; [|done].
    intros r. by rewrite fmap_list_bind.
  - done.
  - apply NoDup_alt. intros i j x Hi Hj.
    assert (Hi' := lookup_lt_Some _ _ _ Hi).
    assert (Hj' := lookup_lt_Some _ _ _ Hj).
    rewrite Hrl in Hi', Hj'.
    rewrite Hlook in Hi by done. rewrite Hlook in Hj by done.
    apply (div_mod_inj n_cols); congruence.
  - rewrite head_lookup, Hlook by done.
    rewrite Nat.div_small, Nat.mod_small by lia. done.
  - rewrite last_lookup, Hrl, Hlook by lia.
    do 2 f_equal.
    + symmetry. apply (Nat.div_unique _ _ _ (n_cols - 1)); nia.
    + f_equal. symmetry. apply (Nat.mod_unique _ _ (n_rows - 1)); nia.
Qed.

Lemma grid_row_major_witness :
  shape (grid 2 3) = [6%nat; 2%nat]
  ∧ last (rows (grid 2 3)) = Some [1%nat; 2%nat].
Proof.
  pose proof (grid_row_major 2 3 ltac:(lia) ltac:(lia)) as H.
  split; [apply H|apply H].
Defined.

(** ** Distributor *)

Lemma filter_fmap_comm {A B} (f : A → B) (P : B → Prop)
    `{!∀ y, Decision (P y)} (l : list A) :
  filter P (f <$> l) = f <$> filter (fun x => P (f x)) l.
Proof.
  induction l as [|x l IH]; [done|].
  rewrite fmap_cons, !filter_cons, IH.
  by destruct (decide (P (f x))).
Qed.

Lemma StronglySorted_filter {A} (R : relation A) (P : A → Prop)
    `{!∀ y, Decision (P y)} (l : list A) :
  StronglySorted R l → StronglySorted R (filter P l).
Proof.
  induction 1 as [|x l Hl IH Hx]; [constructor|].
  rewrite filter_cons. destruct (decide (P x)); [|done].
  constructor; [done|].
  apply Forall_forall. intros y [_ Hy]%list_elem_of_filter.
  rewrite Forall_forall in Hx. by apply Hx.
Qed.

Lemma StronglySorted_seq (a n : nat) : StronglySorted lt (seq a n).
Proof.
  revert a. induction n as [|n IH]; intros a; cbn; constructor; [apply IH|].
  apply Forall_forall. intros x Hx%elem_of_seq. lia.
Qed.

Section DistributeFacts.
Implicit Types (um m : gmap Z (list nat)) (l : list Z) (k b : Z) (d : nat).

Lemma occurrences_shift d k l :
  occurrences (S d) k l = S <$> occurrences d k l.
Proof.
  revert d. induction l as [|b r IH]; intros d; [done|].
  cbn. rewrite fmap_app, <- IH. by destruct (decide (b = k)).
Qed.

Lemma positions_occurrences k l : positions k l = occurrences 0 k l.
Proof.
  unfold positions. induction l as [|b r IH]; [done|].
  cbn [length seq occurrences]. rewrite occurrences_shift, <- IH.
  rewrite filter_cons, <- fmap_S_seq, filter_fmap_comm. cbn.
  destruct (decide (b = k)) as [->|Hne].
  - rewrite decide_True by done. done.
  - rewrite decide_False by congruence. done.
Qed.

Lemma distribute_loop_spec l um d :
  Forall (fun b => is_Some (um !! b)) l →
  ∃ m, distribute_loop um d l = Ok m
       ∧ ∀ k, m !! k = (fun ms => ms ++ occurrences d k l) <$> um !! k.
Proof.
  revert um d. induction l as [|b r IH]; intros um d Hall.
  - exists um. split; [done|]. intros k. cbn.
    destruct (um !! k); cbn; [by rewrite app_nil_r|done].
  - apply Forall_cons in Hall as [[ms Hms] Hall].
    cbn [distribute_loop]. rewrite Hms.
    destruct (IH (<[b := ms ++ [d]]> um) (S d)) as (m & Hm & Hlook).
    { eapply Forall_impl; [exact Hall|]. intros b' [x Hx]. cbn.
      destruct (decide (b = b')) as [->|Hne].
      - rewrite lookup_insert_eq. eauto.
      - rewrite lookup_insert_ne by done. eauto. }
    exists m. split; [done|]. intros k. rewrite Hlook. cbn.
    destruct (decide (b = k)) as [->|Hne].
    + rewrite lookup_insert_eq, Hms. cbn. by rewrite <- app_assoc.
    + by rewrite lookup_insert_ne.
Qed.

Lemma empty_units_lookup n k :
  empty_units n !! k = if decide (0 ≤ k < n) then Some [] else None.
Proof.
  unfold empty_units. destruct (decide (0 ≤ k < n)) as [Hk|Hk].
  - apply elem_of_list_to_map.
    + rewrite <- list_fmap_compose.
      replace ((fst ∘ (fun i : Z => (i, @nil nat))) <$> seqZ 0 n)
        with (seqZ 0 n); [apply NoDup_seqZ|].
      induction (seqZ 0 n) as [|i r IHr]; [done|]. cbn. by f_equal.
    + apply list_elem_of_fmap. exists k. split; [done|].
      apply elem_of_seqZ. lia.
  - apply not_elem_of_list_to_map. rewrite <- list_fmap_compose.
    intros (i & -> & Hi)%list_elem_of_fmap.
    apply elem_of_seqZ in Hi. cbn in Hk. lia.
Qed.
End DistributeFacts.

(** C7. When every element of [bmu_idx] lies in [[0, n_units)],
    [distribute bmu_idx n_units] returns a mapping whose keys are exactly
    [0 .. n_units - 1]; the value at key [k] lists, in increasing order, the
    positions at which [k] occurs in [bmu_idx], and is the empty list for a
    key that never occurs.  In particular
    [distribute [0,2,0] 3 = {0: [0,2], 1: [], 2: [1]}]. *)
Theorem distribute_groups_positions :
  (∀ (bmu_idx : list Z) (n_units : Z),
     0 ≤ n_units →
     Forall (fun b => 0 ≤ b < n_units) bmu_idx →
     ∃ m : gmap Z (list nat),
       distribute bmu_idx n_units = Ok m
       ∧ dom m = list_to_set (seqZ 0 n_units)
       ∧ (∀ k, 0 ≤ k < n_units → m !! k = Some (positions k bmu_idx))
       ∧ (∀ k, 0 ≤ k < n_units → k ∉ bmu_idx → m !! k = Some [])
       ∧ (∀ k, StronglySorted lt (positions k bmu_idx))
       ∧ (∀ k i, i ∈ positions k bmu_idx ↔ bmu_idx !! i = Some k))
  ∧ distribute [0; 2; 0] 3
    = Ok (<[0 := [0%nat; 2%nat]]> (<[1 := []]> (<[2 := [1%nat]]> ∅))).
Proof.
  split.
  - intros bmu_idx n_units Hn Hall.
    destruct (distribute_loop_spec bmu_idx (empty_units n_units) 0)
      as (m & Hm & Hlook).
    { eapply Forall_impl; [exact Hall|]. intros b Hb. cbn.
      rewrite empty_units_lookup, decide_True by done. eauto. }
    assert (Hpos : ∀ k i, i ∈ positions k bmu_idx ↔ bmu_idx !! i = Some k).
    { intros k i. unfold positions. rewrite list_elem_of_filter, elem_of_seq.
      split; [tauto|]. intros Hi. split; [done|].
      apply lookup_lt_Some in Hi. lia. }
    assert (Hin : ∀ k, 0 ≤ k < n_units →
                       m !! k = Some (positions k bmu_idx)).
    { intros k Hk. rewrite Hlook, empty_units_lookup, decide_True by done.
      cbn. by rewrite positions_occurrences. }
    exists m. split_and!; [done| |done| |  |done].
    + apply set_eq. intros k.
      rewrite elem_of_dom, elem_of_list_to_set, elem_of_seqZ, Hlook.
      rewrite empty_units_lookup.
      destruct (decide (0 ≤ k < n_units)) as [Hk|Hk]; cbn.
      * split; [lia|eauto].
      * split; [by intros [? ?]|lia].
    + intros k Hk Hnot. rewrite Hin by done. f_equal.
      destruct (positions k bmu_idx) as [|i r] eqn:E; [done|].
      exfalso. apply Hnot.
      assert (Hi : i ∈ positions k bmu_idx) by (rewrite E; left).
      apply Hpos in Hi. by eapply list_elem_of_lookup_2.
    + intros k. unfold positions.
      apply StronglySorted_filter, StronglySorted_seq.
  - vm_compute. reflexivity.
Qed.

Lemma distribute_groups_positions_witness :
  ∃ m : gmap Z (list nat),
    distribute [1; 1; 0] 4 = Ok m
    ∧ m !! 1 = Some (positions 1 [1; 1; 0])
    ∧ m !! 3 = Some [].
Proof.
  destruct (proj1 distribute_groups_positions [1; 1; 0] 4)
    as (m & Hm & _ & Hpos & Hempty & _).
  - lia.
  - repeat constructor; lia.
  - exists m. split_and!; [done|apply Hpos; lia|apply Hempty; [lia|]].
    rewrite !elem_of_cons, elem_of_nil. lia.
Defined.

(** ** ScheduleGenerator *)

Lemma float_int_bound_large : 2 ^ 53 < float_int_bound.
Proof. by apply Z.ltb_lt. Qed.

Lemma py_float_ok (z : Z) :
  Z.abs z < float_int_bound → py_float z = Ok (float64_of_Z z).
Proof. intros Hz. unfold py_float. by rewrite bool_decide_eq_true_2. Qed.

Lemma py_float_overflow (z : Z) :
  float_int_bound ≤ Z.abs z → py_float z = Raise OverflowError.
Proof. intros Hz. unfold py_float. by rewrite bool_decide_eq_false_2 by lia. Qed.

(** The largest float is the float of the largest convertible [int]; the
    next [int] rounds to infinity. *)
Lemma float_int_bound_sharp :
  is_infinity (float64_of_Z (float_int_bound - 1)) = false
  ∧ is_infinity (float64_of_Z float_int_bound) = true.
Proof. split; by vm_compute. Qed.

Section ScheduleFacts.
Variables np_log np_exp : float64 → float64.

Lemma schedule_value_ok kind start coef (stp : nat) :
  Z.of_nat stp < float_int_bound →
  schedule_value np_exp kind start coef stp
  = Ok (match kind with
        | Linear => linear_term start coef stp
        | Expo => expo_term np_exp start coef stp
        end).
Proof.
  intros Hs. unfold schedule_value. rewrite py_float_ok by lia.
  by destruct kind.
Qed.

(** Inside the loop, the generator yields the remaining values and
    stops. *)
Lemma drain_in_loop kind start coef (n k stp fuel : nat) :
  (stp + k = n)%nat → (k < fuel)%nat → Z.of_nat n ≤ float_int_bound →
  drain np_log np_exp fuel (InLoop kind start coef stp n)
  = Some (Ok ((fun i => match kind with
                        | Linear => linear_term start coef i
                        | Expo => expo_term np_exp start coef i
                        end) <$> seq stp k)).
Proof.
  revert stp fuel. induction k as [|k IH]; intros stp fuel Hn Hf Hb.
  - destruct fuel as [|fuel]; [lia|]. cbn [drain next].
    unfold loop_turn. rewrite bool_decide_eq_false_2 by lia. done.
  - destruct fuel as [|fuel]; [lia|]. cbn [drain next].
    unfold loop_turn. rewrite bool_decide_eq_true_2 by lia.
    rewrite schedule_value_ok by lia.
    rewrite (IH (S stp) fuel) by lia. done.
Qed.

Lemma drain_created_loop kind start (z : Z) stop coef fuel :
  2 ≤ z ≤ float_int_bound →
  (Z.to_nat z < fuel)%nat →
  schedule_coef np_log kind start (PyInt z) stop = Ok coef →
  drain np_log np_exp fuel (Created kind start (PyInt z) stop)
  = Some (Ok ((fun i => match kind with
                        | Linear => linear_term start coef i
                        | Expo => expo_term np_exp start coef i
                        end) <$> seq 0 (Z.to_nat z))).
Proof.
  intros Hz Hf Hcoef.
  rewrite <- (drain_in_loop kind start coef (Z.to_nat z) (Z.to_nat z) 0 fuel)
    by lia.
  destruct fuel as [|fuel]; [lia|]. cbn [drain next].
  cbn [pynum_lt_one isinstance_int pynum_eq_one negb pynum_range].
  rewrite (bool_decide_eq_false_2 (z < 1)) by lia.
  rewrite (bool_decide_eq_false_2 (z = 1)) by lia.
  cbn [orb]. by rewrite Hcoef.
Qed.

Lemma schedule_coef_linear start (z : Z) stop :
  2 ≤ z ≤ float_int_bound →
  schedule_coef np_log Linear start (PyInt z) stop
  = Ok ((stop - start) / float64_of_Z (z - 1))%float.
Proof.
  intros Hz. unfold schedule_coef. cbn [pynum_pred pynum_as_float].
  by rewrite py_float_ok by lia.
Qed.

Lemma schedule_coef_expo start (z : Z) stop :
  2 ≤ z ≤ float_int_bound → (start =? 0)%float = false →
  schedule_coef np_log Expo start (PyInt z) stop
  = Ok (np_log (stop / start) / float64_of_Z (z - 1))%float.
Proof.
  intros Hz H0. unfold schedule_coef. rewrite H0.
  cbn [pynum_pred pynum_as_float]. by rewrite py_float_ok by lia.
Qed.

Lemma next_created_invalid kind start step stop :
  (¬ ∃ z, step = PyInt z ∧ 1 ≤ z) →
  next np_log np_exp (Created kind start step stop)
  = (Raised ValueError, Finished).
Proof.
  intros Hbad. cbn [next].
  destruct step as [z|x]; cbn.
  - rewrite bool_decide_eq_true_2; [done|].
    destruct (decide (z < 1)); [done|]. exfalso. apply Hbad. exists z.
    split; [done|lia].
  - by rewrite orb_true_r.
Qed.

Lemma drain_created_single kind start stop fuel :
  (2 ≤ fuel)%nat →
  drain np_log np_exp fuel (Created kind start (PyInt 1) stop)
  = Some (Ok [start]).
Proof. intros Hf. destruct fuel as [|[|fuel]]; [lia|lia|]. done. Qed.
End ScheduleFacts.

(** The first term of the linear schedule compares equal to [start] as soon
    as [coef] is finite. *)
Lemma linear_term_first (start coef : float64) :
  is_finite coef = true → is_nan start = false →
  (linear_term start coef 0 =? start)%float = true.
Proof.
  intros Hc Hs. unfold linear_term.
  destruct (f64_zero_mul_r coef (float64_of_Z (Z.of_nat 0)) false Hc)
    as [s' Hz]; [done|].
  by eapply f64_zero_add_l.
Qed.

(** C2, as stated, fails: in binary64 the last value need not be [stop].
    [decrease_linear(1.0, 4, 0.1)] ends at [0.10000000000000009], which is
    not [0.1]. *)
Lemma decrease_linear_misses_stop :
  list_of_call (fun x => x) (fun x => x) 5
    (decrease_linear 1 (PyInt 4) 0.1)
  = Some (Ok [1; 0.7; 0.4; 0.10000000000000009]%float)
  ∧ (0.10000000000000009 =? 0.1)%float = false
  ∧ 0.10000000000000009%float ≠ 0.1%float.
Proof.
  split_and!; [by vm_compute|by vm_compute|].
  intros H. apply (f_equal (fun x => (x =? 0.1)%float)) in H.
  by vm_compute in H.
Qed.

(** C2, amended. For an integer [step >= 2] (small enough for [step - 1] to
    be converted to a float), iterating [decrease_linear start step stop] to
    its end gives exactly [step] floats; the one at position [k] is the
    binary64 value of [coef * k + start], where [coef] is the binary64
    quotient of [stop - start] by [step - 1]: each operation rounds, so the
    values follow the arithmetic progression from [start] to [stop] only up
    to rounding.  The first value compares equal to [start] as soon as
    [coef] is finite; the last one need not be [stop].  For [step = 1] the
    only value is [start], whatever [stop] is. *)
Theorem decrease_linear_progression (np_log np_exp : float64 → float64) :
  (∀ (start stop : float64) (step : Z) (fuel : nat),
     2 ≤ step ≤ float_int_bound → (Z.to_nat step < fuel)%nat →
     ∃ (l : list float64) (coef : float64),
       list_of_call np_log np_exp fuel
         (decrease_linear start (PyInt step) stop) = Some (Ok l)
       ∧ coef = ((stop - start) / float64_of_Z (step - 1))%float
       ∧ length l = Z.to_nat step
       ∧ (∀ k, (k < Z.to_nat step)%nat →
               l !! k = Some (coef * float64_of_Z (Z.of_nat k) + start)%float)
       ∧ (is_finite coef = true → is_nan start = false →
          ∃ x, head l = Some x ∧ (x =? start)%float = true))
  ∧ (∀ (start stop : float64) (fuel : nat),
       (2 ≤ fuel)%nat →
       list_of_call np_log np_exp fuel
         (decrease_linear start (PyInt 1) stop) = Some (Ok [start])).
Proof.
  split.
  - intros start stop step fuel Hstep Hfuel.
    set (coef := ((stop - start) / float64_of_Z (step - 1))%float).
    exists (linear_term start coef <$> seq 0 (Z.to_nat step)), coef.
    assert (Hk : ∀ k, (k < Z.to_nat step)%nat →
              (linear_term start coef <$> seq 0 (Z.to_nat step)) !! k
              = Some (coef * float64_of_Z (Z.of_nat k) + start)%float).
    { intros k Hlt. by rewrite list_lookup_fmap, lookup_seq_lt by done. }
    split_and!.
    + cbn [list_of_call decrease_linear].
      by rewrite (drain_created_loop np_log np_exp Linear start step stop coef)
        by (done || by apply schedule_coef_linear).
    + done.
    + by rewrite length_fmap, length_seq.
    + done.
    + intros Hc Hs. exists (linear_term start coef 0). split.
      * rewrite head_lookup, Hk by lia. done.
      * by apply linear_term_first.
  - intros start stop fuel Hfuel. by apply drain_created_single.
Qed.

Lemma decrease_linear_progression_witness :
  ∃ l : list float64,
    list_of_call (fun x => x) (fun x => x) 5
      (decrease_linear 1 (PyInt 4) 0.1) = Some (Ok l)
    ∧ length l = 4%nat
    ∧ l !! 3%nat = Some 0.10000000000000009%float.
Proof.
  destruct (proj1 (decrease_linear_progression (fun x => x) (fun x => x))
              1%float 0.1%float 4 5%nat)
    as (l & coef & Hl & Hcoef & Hlen & Hk & _).
  - split; [lia|]. pose proof float_int_bound_large. lia.
  - cbn. lia.
  - exists l. split_and!; [exact Hl|exact Hlen|].
    rewrite (Hk 3%nat) by (cbn; lia). rewrite Hcoef. by vm_compute.
Defined.

(** C3, as stated, fails: a call with an invalid [step] raises nothing.  It
    returns a generator, for [decrease_linear] and for [decrease_expo]. *)
Lemma invalid_step_call_returns :
  decrease_linear 1 (PyInt 0) 1 = Returns (Created Linear 1 (PyInt 0) 1)
  ∧ decrease_linear 1 (PyInt 0) 1 ≠ Throws ValueError
  ∧ decrease_expo 1 (PyInt 0) 1 = Returns (Created Expo 1 (PyInt 0) 1)
  ∧ decrease_expo 1 (PyInt 0) 1 ≠ Throws ValueError.
Proof. split_and!; done. Qed.

(** C3, amended. For every [start] and [stop], and every [step] that is not
    an integer [>= 1], both [decrease_linear] and [decrease_expo] return a
    generator without raising; the first attempt to advance that generator
    raises [ValueError], before any value is produced, and so does
    collecting it into a list. *)
Theorem invalid_step_raises_on_first_advance
    (np_log np_exp : float64 → float64) (start stop : float64)
    (step : pynum) :
  (¬ ∃ z, step = PyInt z ∧ 1 ≤ z) →
  (∃ g, decrease_linear start step stop = Returns g
        ∧ next np_log np_exp g = (Raised ValueError, Finished))
  ∧ (∃ g, decrease_expo start step stop = Returns g
          ∧ next np_log np_exp g = (Raised ValueError, Finished))
  ∧ (∀ fuel, (1 ≤ fuel)%nat →
       list_of_call np_log np_exp fuel (decrease_linear start step stop)
       = Some (Raise ValueError)
       ∧ list_of_call np_log np_exp fuel (decrease_expo start step stop)
         = Some (Raise ValueError)).
Proof.
  intros Hbad. split_and!.
  - exists (Created Linear start step stop).
    split; [done|by apply next_created_invalid].
  - exists (Created Expo start step stop).
    split; [done|by apply next_created_invalid].
  - intros [|fuel] Hf; [lia|].
    cbn [list_of_call decrease_linear decrease_expo drain].
    by rewrite !next_created_invalid.
Qed.

Lemma invalid_step_raises_on_first_advance_witness :
  ∃ g, decrease_expo 8 (PyFloat 2.5) 1 = Returns g
       ∧ next (fun x => x) (fun x => x) g = (Raised ValueError, Finished).
Proof.
  apply (invalid_step_raises_on_first_advance (fun x => x) (fun x => x)
           8%float 1%float (PyFloat 2.5)).
  intros (z & Hz & _). discriminate Hz.
Defined.

(** ** BestMatchFinder *)

Lemma scan_first_min (l pre : list float) (best_i : nat) (best : float) :
  first_min pre best_i best →
  first_min (pre ++ l) (argmin_scan best_i best (length pre) l)
            (min_scan best l).
Proof.
  revert pre best_i best.
  induction l as [|x l IH]; intros pre best_i best (Hat & Hle & Hlt).
  - rewrite app_nil_r. done.
  - cbn [argmin_scan min_scan].
    replace (pre ++ x :: l) with ((pre ++ [x]) ++ l)
      by (by rewrite <- app_assoc).
    replace (S (length pre)) with (length (pre ++ [x]))
      by (rewrite length_app; cbn; lia).
    assert (Hbi : (best_i < length pre)%nat) by (by eapply lookup_lt_Some).
    destruct (decide (x < best)%Qc) as [Hx|Hx].
    + rewrite !bool_decide_eq_true_2 by done. apply IH. split_and!.
      * by rewrite lookup_app_r, Nat.sub_diag by lia.
      * intros j y Hj. apply lookup_app_Some in Hj as [Hj|[_ Hj]].
        -- apply Qclt_le_weak. eapply Qclt_le_trans; [exact Hx|]. by eapply Hle.
        -- apply list_lookup_singleton_Some in Hj as [_ <-]. apply Qcle_refl.
      * intros j y Hjl Hj. rewrite lookup_app_l in Hj by done.
        eapply Qclt_le_trans; [exact Hx|]. by eapply Hle.
    + rewrite !bool_decide_eq_false_2 by done. apply IH. split_and!.
      * by rewrite lookup_app_l by done.
      * intros j y Hj. apply lookup_app_Some in Hj as [Hj|[_ Hj]].
        -- by eapply Hle.
        -- apply list_lookup_singleton_Some in Hj as [_ <-].
           by apply Qcnot_lt_le.
      * intros j y Hjl Hj. rewrite lookup_app_l in Hj by lia.
        by eapply Hlt.
Qed.

Lemma list_argmin_min_spec (x : float) (l : list float) :
  list_argmin (x :: l) = Ok (argmin_scan 0 x 1 l)
  ∧ list_min (x :: l) = Ok (min_scan x l)
  ∧ first_min (x :: l) (argmin_scan 0 x 1 l) (min_scan x l).
Proof.
  split_and!; [done|done|].
  apply (scan_first_min l [x] 0 x). split_and!; [done| |].
  - intros [|j] y Hj; [|done]. injection Hj as <-. apply Qcle_refl.
  - intros j y Hj. lia.
Qed.

Lemma bind_singleton_fmap {A B} (f : A → B) (l : list A) :
  (x ← l; [f x]) = f <$> l.
Proof.
  induction l as [|x l IH]; [done|]. by rewrite bind_cons, fmap_cons, IH.
Qed.

Lemma bind_blocks_lookup {A B} (f : A → list B) (us : list A) (c i j : nat)
    (u : A) :
  (∀ u', length (f u') = c) → us !! i = Some u → (j < c)%nat →
  (us ≫= f) !! (i * c + j)%nat = f u !! j.
Proof.
  intros Hlen. revert i. induction us as [|u0 us IH]; intros i Hi Hj; [done|].
  rewrite bind_cons. destruct i as [|i].
  - injection Hi as ->. by rewrite lookup_app_l by (rewrite Hlen; lia).
  - cbn in Hi. rewrite lookup_app_r by (rewrite Hlen; lia).
    rewrite Hlen. replace (S i * c + j - c)%nat with (i * c + j)%nat by lia.
    by apply IH.
Qed.

Lemma omap_seq_lookup {A B} (l : list A) (h : nat → option B) (g : A → B)
    (a : nat) :
  (∀ i x, l !! i = Some x → h (a + i)%nat = Some (g x)) →
  omap h (seq a (length l)) = g <$> l.
Proof.
  revert a. induction l as [|x l IH]; intros a Hh; [done|].
  assert (Hx := Hh 0%nat x eq_refl). rewrite Nat.add_0_r in Hx.
  cbn. rewrite Hx. f_equal. apply IH. intros i y Hy.
  replace (S a + i)%nat with (a + S i)%nat by lia. by apply Hh.
Qed.

Lemma mapM_ok {A B} (f : A → result B) (g : A → B) (l : list A) :
  (∀ x, x ∈ l → f x = Ok (g x)) → mapM f l = Ok (g <$> l).
Proof.
  induction l as [|x l IH]; intros Hf; [done|].
  cbn [mapM]. rewrite Hf by left. cbn.
  rewrite IH by (intros y Hy; apply Hf; by right). done.
Qed.

Lemma rows_length {A} (a : ndarray A) (r c : nat) :
  shape a = [r; c] → length (rows a) = r.
Proof. intros Hs. unfold rows. by rewrite Hs, length_fmap, length_seq. Qed.

Section BestMatchFacts.
Variable metric : list float → list float → float.

Lemma cdist_column (W I : ndarray float) (r k c k' j : nat)
    (x : list float) :
  shape W = [r; k] → shape I = [c; k'] → rows I !! j = Some x →
  column (cdist metric W I) j = (fun u => metric u x) <$> rows W.
Proof.
  intros HW HI Hx.
  assert (Hr := rows_length W r k HW).
  assert (Hc := rows_length I c k' HI).
  assert (Hj : (j < c)%nat) by (rewrite <- Hc; by eapply lookup_lt_Some).
  assert (Hsh : shape (cdist metric W I) = [r; c])
    by (unfold cdist, nrows; cbn [shape]; by rewrite HW, HI).
  unfold column. rewrite Hsh, <- Hr.
  apply omap_seq_lookup. intros i u Hu. cbn [cdist data Nat.add].
  rewrite (bind_blocks_lookup _ (rows W) c i j u); [|  |done|done].
  - by rewrite bind_singleton_fmap, list_lookup_fmap, Hx.
  - intros u'. by rewrite bind_singleton_fmap, length_fmap.
Qed.

(** Reducing the distance table column by column succeeds as soon as there
    is at least one unit. *)
Lemma reduce_axis0_cdist {B} (f : list float → result B)
    (g : float → list float → B) (W I : ndarray float) (r k c k' : nat) :
  shape W = [r; k] → shape I = [c; k'] → (0 < r)%nat →
  (∀ y l, f (y :: l) = Ok (g y l)) →
  ∃ out : list B,
    reduce_axis0 f (cdist metric W I) = Ok (NdArray [c] out)
    ∧ length out = c
    ∧ ∀ j x, rows I !! j = Some x →
        ∃ y l, (fun u => metric u x) <$> rows W = y :: l
               ∧ out !! j = Some (g y l).
Proof.
  intros HW HI Hr Hf.
  assert (Hrl := rows_length W r k HW).
  assert (Hcl := rows_length I c k' HI).
  set (h := fun j => match column (cdist metric W I) j with
                     | [] => g 0%Qc []
                     | y :: l => g y l
                     end).
  assert (Hcol : ∀ j x, rows I !! j = Some x →
            ∃ y l, (fun u => metric u x) <$> rows W = y :: l
                   ∧ column (cdist metric W I) j = y :: l).
  { intros j x Hx.
    rewrite (cdist_column W I r k c k' j x) by done.
    destruct (rows W) as [|u us]; [cbn in Hrl; lia|]. cbn. eauto. }
  exists (h <$> seq 0 c). split_and!.
  - assert (Hsh : shape (cdist metric W I) = [r; c])
      by (unfold cdist, nrows; cbn [shape]; by rewrite HW, HI).
    unfold reduce_axis0. rewrite Hsh.
    rewrite bool_decide_eq_false_2 by lia.
    erewrite (mapM_ok _ h); [done|].
    intros j Hj%elem_of_seq.
    destruct (lookup_lt_is_Some_2 (rows I) j) as [x Hx]; [lia|].
    destruct (Hcol j x Hx) as (y & l & _ & Hyl).
    unfold h. rewrite Hyl. apply Hf.
  - by rewrite length_fmap, length_seq.
  - intros j x Hx. destruct (Hcol j x Hx) as (y & l & Hmap & Hyl).
    exists y, l. split; [done|].
    rewrite list_lookup_fmap, lookup_seq_lt.
    + cbn. unfold h. by rewrite Hyl.
    + rewrite <- Hcl. by eapply lookup_lt_Some.
Qed.
End BestMatchFacts.




(** ** WeightInitializer *)











Lemma forallb_length_eq {A} (units : nat) (bs : list (list A)) :
  Forall (fun blk => length blk = units) bs →
  forallb (fun m => Nat.eqb (length m) units) bs = true.
Proof.
  induction 1 as [|b bs Hb _ IH]; [done|].
  cbn. by rewrite IH, Hb, Nat.eqb_refl.
Qed.

Section InitializerFacts.
Context {S : Type} `{RandomSource S}.
Hypothesis Hrandint : randint_contract.
Hypothesis Hdirichlet : dirichlet_contract.





End InitializerFacts.

Lemma fsum_replicate_0 (k : nat) : fsum (replicate k 0%Qc) = 0%Qc.
Proof.
  induction k as [|k IH]; [done|].
  cbn [replicate]. unfold fsum in *. cbn [foldr]. rewrite IH. ring.
Qed.

Lemma replay_randint_contract : @randint_contract replay replay_source.
Proof.
  intros low high r c s Hlt. cbn. split.
  - by rewrite length_fmap, length_seq.
  - apply Forall_fmap, Forall_forall. intros i _. cbn. split.
    + by rewrite length_fmap, length_seq.
    + apply Forall_fmap, Forall_forall. intros j _. cbn.
      unfold clamp. case_bool_decide; lia.
Qed.

Lemma replay_dirichlet_contract : @dirichlet_contract replay replay_source.
Proof.
  intros alpha size s Hne _. cbn. split.
  - by rewrite length_replicate.
  - apply Forall_replicate. destruct alpha as [|a alpha]; [done|].
    cbn [length one_hot]. split.
    + cbn. by rewrite length_replicate.
    + unfold fsum. cbn [foldr].
      change (foldr Qcplus 0%Qc ?l) with (fsum l).
      rewrite fsum_replicate_0. ring.
Qed.



(** C5. The code does not reinforce the diagonal.  With the integer draws
    [[1, 5], [5, 1]], the concentration vectors handed to the Dirichlet
    collaborator are these very rows: for each state, the parameter of its
    own component is the smallest of the row, not twice the others. *)
Theorem sample_stm_diagonal_not_reinforced :
  asked (sample_stm (1%nat, 1%nat, 4%nat) None (Replay low_diagonal [])).2
  = [[float_of_Z 1; float_of_Z 5]; [float_of_Z 5; float_of_Z 1]]
  ∧ (float_of_Z 1 < float_of_Z 5)%Qc.
Proof. split; [reflexivity|done]. Qed.

(** C10. With the same random source in the same state and the same dims,
    [sample_hist] and [sample_stm] return the same array, and leave the
    source in the same state, whatever [data] is, [None] included. *)
Theorem initializers_ignore_data {S : Type} `{RandomSource S}
    (dims : SomDims) (data1 data2 : option (ndarray float)) (s : S) :
  sample_hist dims data1 s = sample_hist dims data2 s
  ∧ sample_stm dims data1 s = sample_stm dims data2 s.
Proof. destruct dims as [[n_rows n_cols] n_feats]. split; reflexivity. Qed.

(** ** PCAComputer *)

Lemma take_indices_ok {A} (l : list A) (idx : list nat) :
  Forall (fun i => (i < length l)%nat) idx →
  ∃ out, take_indices l idx = Ok out
         ∧ Forall2 (fun i x => l !! i = Some x) idx out.
Proof.
  unfold take_indices. induction 1 as [|i idx Hi _ (out & Hout & Hall)].
  - exists []. split; [done|constructor].
  - destruct (lookup_lt_is_Some_2 l i Hi) as [x Hx].
    exists (x :: out). split.
    + cbn [mapM]. rewrite Hx. cbn. rewrite Hout. done.
    + by constructor.
Qed.

Section OrdIdxFacts.
Variable argsort : list float → list nat.
Variables (vals : list float) (n_comps : nat).
Hypothesis Hperm : argsort vals ≡ₚ seq 0 (length vals).

Lemma argsort_length : length (argsort vals) = length vals.
Proof. by rewrite Hperm, length_seq. Qed.

Lemma ord_idx_lookup (p i : nat) :
  ord_idx argsort vals n_comps !! p = Some i ↔
  (p < n_comps)%nat ∧ (p < length vals)%nat
  ∧ argsort vals !! (length vals - S p)%nat = Some i.
Proof.
  unfold ord_idx. rewrite lookup_take_Some.
  split.
  - intros [Hrev Hp].
    assert (Hlt := lookup_lt_Some _ _ _ Hrev).
    rewrite length_reverse, argsort_length in Hlt.
    rewrite reverse_lookup, argsort_length in Hrev
      by (by rewrite argsort_length).
    done.
  - intros (Hp & Hlt & Hi).
    rewrite reverse_lookup, argsort_length by (by rewrite argsort_length).
    done.
Qed.

Lemma ord_idx_length :
  length (ord_idx argsort vals n_comps) = (n_comps `min` length vals)%nat.
Proof.
  unfold ord_idx. by rewrite length_take, length_reverse, argsort_length.
Qed.

Lemma ord_idx_in_range :
  Forall (fun i => (i < length vals)%nat) (ord_idx argsort vals n_comps).
Proof.
  apply Forall_forall. intros i Hi. unfold ord_idx in Hi.
  apply (subseteq_take n_comps) in Hi.
  rewrite elem_of_reverse, Hperm, elem_of_seq in Hi. lia.
Qed.

Lemma ord_idx_NoDup : NoDup (ord_idx argsort vals n_comps).
Proof.
  unfold ord_idx. eapply sublist_NoDup; [|apply sublist_take].
  rewrite reverse_Permutation, Hperm. apply NoDup_seq.
Qed.
End OrdIdxFacts.

(** C4, as stated, fails: on the four corners of a square the two singular
    values are equal, and [pca] returns the two components in the reverse of
    their native order. *)
Lemma pca_ties_reversed :
  (∃ proj, pca svd_of_square insertion_argsort square_data 2
           = Ok ([(1 + 1)%Qc; (1 + 1)%Qc],
                 [[0%Qc; 1%Qc]; [1%Qc; 0%Qc]], proj))
  ∧ ord_idx insertion_argsort [(1 + 1)%Qc; (1 + 1)%Qc] 2 = [1%nat; 0%nat]
  ∧ ¬ ties_in_native_order [(1 + 1)%Qc; (1 + 1)%Qc]
        (ord_idx insertion_argsort [(1 + 1)%Qc; (1 + 1)%Qc] 2).
Proof.
  assert (Hord : ord_idx insertion_argsort [(1 + 1)%Qc; (1 + 1)%Qc] 2
                 = [1%nat; 0%nat]) by (vm_compute; reflexivity).
  split_and!.
  - eexists. unfold pca, svd_of_square. rewrite Hord. reflexivity.
  - exact Hord.
  - rewrite Hord. intros Hties.
    specialize (Hties 0%nat 1%nat 1%nat 0%nat).
    cbn in Hties. specialize (Hties ltac:(lia) eq_refl eq_refl eq_refl). lia.
Qed.

(** C4, amended. Whenever [argsort] lists the indices of the singular
    values by non-decreasing value, [pca] returns the [n_comps] largest
    singular values (all of them when there are fewer) in non-increasing
    order, with their component vectors.  Values that are exactly equal come
    in the reverse of the order [argsort] gave them: with an argsort that
    keeps equal values in their native order, tied components are returned
    in reverse native order. *)
Theorem pca_selects_largest_ties_reversed
    (svd : matrix float → matrix float * list float * matrix float)
    (argsort : list float → list nat)
    (data : matrix float) (n_comps : nat)
    (u : matrix float) (vals : list float) (vects : matrix float) :
  svd (sub_row data (mean_axis0 data)) = (u, vals, vects) →
  argsort vals ≡ₚ seq 0 (length vals) →
  ascending_by vals (argsort vals) →
  (length vals ≤ length vects)%nat →
  ∃ (vals' : list float) (vects' : matrix float),
    pca svd argsort data n_comps
    = Ok (vals', vects',
          matmul_transposed (sub_row data (mean_axis0 data)) vects')
    ∧ length (ord_idx argsort vals n_comps) = (n_comps `min` length vals)%nat
    ∧ NoDup (ord_idx argsort vals n_comps)
    ∧ Forall2 (fun i x => vals !! i = Some x)
              (ord_idx argsort vals n_comps) vals'
    ∧ Forall2 (fun i v => vects !! i = Some v)
              (ord_idx argsort vals n_comps) vects'
    ∧ (∀ p q x y, (p < q)%nat → vals' !! p = Some x → vals' !! q = Some y →
                  (y ≤ x)%Qc)
    ∧ (∀ i x y, vals !! i = Some x → i ∉ ord_idx argsort vals n_comps →
                y ∈ vals' → (x ≤ y)%Qc)
    ∧ (ties_in_native_order vals (argsort vals) →
       ∀ p q i j, (p < q)%nat →
         ord_idx argsort vals n_comps !! p = Some i →
         ord_idx argsort vals n_comps !! q = Some j →
         vals !! i = vals !! j → (j < i)%nat).
Proof.
  intros Hsvd Hperm Hasc Hvects.
  set (ord := ord_idx argsort vals n_comps).
  assert (Hrange := ord_idx_in_range argsort vals n_comps Hperm).
  fold ord in Hrange.
  destruct (take_indices_ok vals ord Hrange) as (vals' & Hv & Hvals').
  destruct (take_indices_ok vects ord) as (vects' & Hw & Hvects').
  { eapply Forall_impl; [exact Hrange|]. intros i Hi. cbn in *. lia. }
  assert (Hlook := ord_idx_lookup argsort vals n_comps Hperm).
  fold ord in Hlook.
  exists vals', vects'. split_and!.
  - unfold pca. rewrite Hsvd. fold ord. rewrite Hv. cbn. rewrite Hw. done.
  - by apply ord_idx_length.
  - by apply ord_idx_NoDup.
  - done.
  - done.
  - intros p q x y Hpq Hx Hy.
    destruct (Forall2_lookup_r _ _ _ _ _ Hvals' Hx) as (i & Hi & Hix).
    destruct (Forall2_lookup_r _ _ _ _ _ Hvals' Hy) as (j & Hj & Hjy).
    apply Hlook in Hi as (_ & Hp & Hi). apply Hlook in Hj as (_ & Hq & Hj).
    eapply (Hasc (length vals - S q)%nat (length vals - S p)%nat);
      [lia|done..].
  - intros i x y Hx Hnot Hy.
    apply list_elem_of_lookup in Hy as [q Hy].
    destruct (Forall2_lookup_r _ _ _ _ _ Hvals' Hy) as (j & Hj & Hjy).
    apply Hlook in Hj as (Hqn & Hq & Hj).
    assert (Hin : i ∈ argsort vals).
    { rewrite Hperm, elem_of_seq. apply lookup_lt_Some in Hx. lia. }
    apply list_elem_of_lookup in Hin as [t Ht].
    assert (Htl : (t < length vals)%nat).
    { rewrite <- (argsort_length argsort vals Hperm).
      by eapply lookup_lt_Some. }
    destruct (decide (t < length vals - S q)%nat) as [Hlt|Hge].
    + by eapply (Hasc t (length vals - S q)%nat).
    + exfalso. apply Hnot. apply list_elem_of_lookup.
      exists (length vals - S t)%nat. apply Hlook. split_and!; [lia..|].
      by replace (length vals - S (length vals - S t))%nat with t by lia.
  - intros Hstable p q i j Hpq Hi Hj Heq.
    apply Hlook in Hi as (_ & Hp & Hi). apply Hlook in Hj as (_ & Hq & Hj).
    eapply (Hstable (length vals - S q)%nat (length vals - S p)%nat);
      [lia|done..].
Qed.

Lemma pca_selects_largest_ties_reversed_witness :
  ∃ (vals' : list float) (vects' : matrix float),
    pca svd_of_square insertion_argsort square_data 2
    = Ok (vals', vects',
          matmul_transposed (sub_row square_data (mean_axis0 square_data))
                            vects')
    ∧ NoDup (ord_idx insertion_argsort [(1 + 1)%Qc; (1 + 1)%Qc] 2).
Proof.
  destruct (pca_selects_largest_ties_reversed
              svd_of_square insertion_argsort square_data 2
              ((fun r : list float => (fun x : float => x / (1 + 1))%Qc <$> r)
                 <$> sub_row square_data (mean_axis0 square_data))
              [(1 + 1)%Qc; (1 + 1)%Qc]
              [[1%Qc; 0%Qc]; [0%Qc; 1%Qc]])
    as (vals' & vects' & Hpca & _ & Hnd & _).
  - reflexivity.
  - vm_compute. reflexivity.
  - intros p q i j x y Hpq Hp Hq Hx Hy.
    assert (Hx' : x = (1 + 1)%Qc).
    { destruct i as [|[|i]]; cbn in Hx; by simplify_eq. }
    assert (Hy' : y = (1 + 1)%Qc).
    { destruct j as [|[|j]]; cbn in Hy; by simplify_eq. }
    rewrite Hx', Hy'. apply Qcle_refl.
  - cbn. lia.
  - exists vals', vects'. split; [exact Hpca|exact Hnd].
Defined.

(** ** Scaler *)




Lemma build_wf (sh : list nat) (f : list nat → float64) : wf_array (build sh f).
Proof. unfold wf_array, build. cbn. by rewrite length_fmap, length_seq. Qed.









Lemma slice_along_self (a : ndarray float64) (ax : nat) (idx : list nat) :
  valid_index (shape a) idx → (ax < ndim a)%nat →
  get a idx ∈ slice_along a ax idx.
Proof.
  intros Hv Hax. unfold slice_along.
  destruct (lookup_lt_is_Some_2 (shape a) ax Hax) as [d Hd].
  assert (Hlen := Forall2_length _ _ _ Hv).
  destruct (lookup_lt_is_Some_2 idx ax) as [i Hi]; [unfold ndim in Hax; lia|].
  assert (Hid : (i < d)%nat) by (by eapply (Forall2_lookup_lr _ idx (shape a))).
  rewrite Hd. cbn. apply list_elem_of_fmap. exists i. split.
  - by rewrite list_insert_id.
  - apply elem_of_seq. lia.
Qed.

Lemma min_scan_spec (l : list float) (best : float) :
  min_scan best l ∈ best :: l ∧ ∀ y, y ∈ best :: l → (min_scan best l ≤ y)%Qc.
Proof.
  destruct (list_argmin_min_spec best l) as (_ & _ & Hat & Hle & _).
  split.
  - by eapply list_elem_of_lookup_2.
  - intros y [j Hj]%list_elem_of_lookup. by eapply Hle.
Qed.

Lemma max_scan_spec (l : list float) (best : float) :
  max_scan best l ∈ best :: l ∧ ∀ y, y ∈ best :: l → (y ≤ max_scan best l)%Qc.
Proof.
  revert best. induction l as [|x l IH]; intros best.
  - cbn. split; [left|]. intros y ->%list_elem_of_singleton. apply Qcle_refl.
  - cbn [max_scan]. case_bool_decide as Hx.
    + destruct (IH x) as [Hin Hub]. split.
      * by right.
      * intros y Hy. apply elem_of_cons in Hy as [->|Hy]; [|by apply Hub].
        eapply Qcle_trans; [apply Qclt_le_weak, Hx|]. apply Hub. left.
    + destruct (IH best) as [Hin Hub]. split.
      * apply elem_of_cons in Hin as [Hin|Hin]; [rewrite Hin; left|].
        by do 2 right.
      * intros y Hy. apply elem_of_cons in Hy as [->|Hy]; [apply Hub; left|].
        apply elem_of_cons in Hy as [->|Hy]; [|by apply Hub; right].
        eapply Qcle_trans; [apply Qcnot_lt_le, Hx|]. apply Hub. left.
Qed.










Section ScaleFacts.
Variables (arr : ndarray float64) (new_min new_max : float64) (ax d : nat).
Hypothesis Hd : shape arr !! ax = Some d.
Hypothesis Hpos : (0 < d)%nat.



Hypothesis Hnan : Forall (fun x => is_nan x = false) (data arr).


End ScaleFacts.





(** * Further properties *)

(** ** GridIndexer *)

(** X1. [grid_iter n_rows n_cols] lists every cell of the grid once: the
    pair [(r, c)] occurs iff [r < n_rows] and [c < n_cols], and it sits at
    flat index [r * n_cols + c], the inverse of the row-major formula.  When
    one of the extents is 0 the enumeration is empty and [grid] is the
    one-dimensional empty array of shape [(0,)], not a [(0, 2)] table. *)
Theorem grid_iter_round_trip (n_rows n_cols : nat) :
  (∀ r c, (r < n_rows)%nat → (c < n_cols)%nat →
          grid_iter n_rows n_cols !! (r * n_cols + c)%nat = Some (r, c))
  ∧ (∀ r c, (r, c) ∈ grid_iter n_rows n_cols
            ↔ (r < n_rows)%nat ∧ (c < n_cols)%nat)
  ∧ NoDup (grid_iter n_rows n_cols)
  ∧ (n_rows = 0%nat ∨ n_cols = 0%nat →
     grid_iter n_rows n_cols = []
     ∧ shape (grid n_rows n_cols) = [0%nat]
     ∧ ndim (grid n_rows n_cols) = 1%nat).
Proof.
  assert (Hat : ∀ r c, (r < n_rows)%nat → (c < n_cols)%nat →
            grid_iter n_rows n_cols !! (r * n_cols + c)%nat = Some (r, c)).
  { intros r c Hr Hc. rewrite grid_iter_lookup by nia.
    do 2 f_equal.
    - symmetry. apply (Nat.div_unique _ _ _ c); lia.
    - symmetry. apply (Nat.mod_unique _ _ r); lia. }
  assert (Hempty : n_rows = 0%nat ∨ n_cols = 0%nat →
            grid_iter n_rows n_cols = []).
  { intros Hz. apply length_zero_iff_nil. rewrite grid_iter_length.
    destruct Hz as [-> | ->]; lia. }
  split_and!.
  - exact Hat.
  - intros r c. split.
    + intros [i Hi]%list_elem_of_lookup.
      assert (Hlt := lookup_lt_Some _ _ _ Hi).
      rewrite grid_iter_length in Hlt.
      rewrite grid_iter_lookup in Hi by done. injection Hi as <- <-.
      assert (Hc : (0 < n_cols)%nat) by (destruct n_cols; lia).
      split.
      * apply Nat.Div0.div_lt_upper_bound. lia.
      * by apply Nat.mod_upper_bound, Nat.neq_0_lt_0.
    + intros [Hr Hc]. eapply list_elem_of_lookup_2. by apply Hat.
  - apply NoDup_alt. intros i j x Hi Hj.
    assert (Hi' := lookup_lt_Some _ _ _ Hi).
    assert (Hj' := lookup_lt_Some _ _ _ Hj).
    rewrite grid_iter_length in Hi', Hj'.
    rewrite grid_iter_lookup in Hi, Hj by done.
    apply (div_mod_inj n_cols); congruence.
  - intros Hz. unfold grid, ndim. by rewrite (Hempty Hz).
Qed.

(** ** ScheduleGenerator *)

Lemma drain_created_valid (np_log np_exp : float64 → float64)
    (kind : schedule_kind) (start stop : float64) (z : Z) (fuel : nat) :
  1 ≤ z ≤ float_int_bound → (Z.to_nat z < fuel)%nat →
  (kind = Expo → z = 1 ∨ (start =? 0)%float = false) →
  ∃ l, drain np_log np_exp fuel (Created kind start (PyInt z) stop)
       = Some (Ok l)
       ∧ length l = Z.to_nat z.
Proof.
  intros Hz Hf Hstart. destruct (decide (z = 1)) as [->|Hne].
  - exists [start]. split; [|done]. apply drain_created_single. cbn in Hf. lia.
  - assert (Hcoef : ∃ coef,
              schedule_coef np_log kind start (PyInt z) stop = Ok coef).
    { destruct kind.
      - eexists. apply schedule_coef_linear. lia.
      - destruct Hstart as [?|H0]; [done|lia|].
        eexists. apply schedule_coef_expo; [lia|done]. }
    destruct Hcoef as [coef Hcoef].
    eexists. split; [by apply (drain_created_loop _ _ _ _ _ _ coef); [lia|..]|].
    by rewrite length_fmap, length_seq.
Qed.

Lemma drain_created_zero_start (np_log np_exp : float64 → float64)
    (start stop : float64) (z : Z) (fuel : nat) :
  2 ≤ z → (1 ≤ fuel)%nat → (start =? 0)%float = true →
  drain np_log np_exp fuel (Created Expo start (PyInt z) stop)
  = Some (Raise ZeroDivisionError).
Proof.
  intros Hz Hf H0. destruct fuel as [|fuel]; [lia|]. cbn [drain next].
  cbn [pynum_lt_one isinstance_int pynum_eq_one negb pynum_range].
  rewrite (bool_decide_eq_false_2 (z < 1)) by lia.
  rewrite (bool_decide_eq_false_2 (z = 1)) by lia.
  cbn [orb]. unfold schedule_coef. by rewrite H0.
Qed.

Lemma drain_created_overflow (np_log np_exp : float64 → float64)
    (kind : schedule_kind) (start stop : float64) (z : Z) (fuel : nat) :
  float_int_bound < z → (1 ≤ fuel)%nat →
  (kind = Expo → (start =? 0)%float = false) →
  drain np_log np_exp fuel (Created kind start (PyInt z) stop)
  = Some (Raise OverflowError).
Proof.
  intros Hz Hf Hstart. pose proof float_int_bound_large as Hb.
  destruct fuel as [|fuel]; [lia|]. cbn [drain next].
  cbn [pynum_lt_one isinstance_int pynum_eq_one negb pynum_range].
  rewrite (bool_decide_eq_false_2 (z < 1)) by lia.
  rewrite (bool_decide_eq_false_2 (z = 1)) by lia.
  cbn [orb]. unfold schedule_coef. cbn [pynum_pred pynum_as_float].
  rewrite py_float_overflow by lia.
  destruct kind; [done|]. by rewrite Hstart.
Qed.

(** X2. The [step] guard of the two schedules is exact.  Collecting either
    schedule raises [ValueError] iff [step] is not an integer [>= 1].  For
    an integer [step >= 1] (small enough for [step - 1] to be converted to a
    float) [decrease_linear] ends normally after exactly [step] values, and
    so does [decrease_expo] unless [step >= 2] and [start] is zero: then
    [stop / start] raises [ZeroDivisionError] at the first advance.  With a
    [step] beyond the range of the floats, [decrease_linear] raises
    [OverflowError]. *)
Theorem schedule_raises_iff_invalid_step (np_log np_exp : float64 → float64)
    (start stop : float64) (step : pynum) (fuel : nat) :
  (pynum_range step < fuel)%nat →
  (list_of_call np_log np_exp fuel (decrease_linear start step stop)
   = Some (Raise ValueError) ↔ ¬ ∃ z, step = PyInt z ∧ 1 ≤ z)
  ∧ (list_of_call np_log np_exp fuel (decrease_expo start step stop)
     = Some (Raise ValueError) ↔ ¬ ∃ z, step = PyInt z ∧ 1 ≤ z)
  ∧ (∀ z, step = PyInt z → 1 ≤ z ≤ float_int_bound →
       ∃ l : list float64,
         list_of_call np_log np_exp fuel (decrease_linear start step stop)
         = Some (Ok l)
         ∧ length l = Z.to_nat z)
  ∧ (∀ z, step = PyInt z → 1 ≤ z ≤ float_int_bound →
       z = 1 ∨ (start =? 0)%float = false →
       ∃ l : list float64,
         list_of_call np_log np_exp fuel (decrease_expo start step stop)
         = Some (Ok l)
         ∧ length l = Z.to_nat z)
  ∧ (∀ z, step = PyInt z → 2 ≤ z → (start =? 0)%float = true →
       list_of_call np_log np_exp fuel (decrease_expo start step stop)
       = Some (Raise ZeroDivisionError))
  ∧ (∀ z, step = PyInt z → float_int_bound < z →
       list_of_call np_log np_exp fuel (decrease_linear start step stop)
       = Some (Raise OverflowError)).
Proof.
  intros Hfuel.
  assert (Hf1 : (1 ≤ fuel)%nat) by lia.
  assert (Hinvalid : ∀ kind, (¬ ∃ z, step = PyInt z ∧ 1 ≤ z) →
            drain np_log np_exp fuel (Created kind start step stop)
            = Some (Raise ValueError)).
  { intros kind Hbad. destruct fuel as [|fuel]; [lia|].
    cbn [drain]. by rewrite next_created_invalid. }
  assert (Hlin : ∀ z, step = PyInt z → 1 ≤ z →
            drain np_log np_exp fuel (Created Linear start step stop)
            ≠ Some (Raise ValueError)).
  { intros z -> Hz. destruct (decide (z ≤ float_int_bound)) as [Hb|Hb].
    - destruct (drain_created_valid np_log np_exp Linear start stop z fuel)
        as (l & -> & _); [lia|done|done|done].
    - rewrite drain_created_overflow by (done || lia). done. }
  assert (Hexp : ∀ z, step = PyInt z → 1 ≤ z →
            drain np_log np_exp fuel (Created Expo start step stop)
            ≠ Some (Raise ValueError)).
  { intros z -> Hz. destruct (decide (z = 1)) as [->|Hne].
    { rewrite drain_created_single by (cbn in Hfuel; lia). done. }
    destruct (start =? 0)%float eqn:H0.
    { rewrite drain_created_zero_start by (done || lia). done. }
    destruct (decide (z ≤ float_int_bound)) as [Hb|Hb].
    - destruct (drain_created_valid np_log np_exp Expo start stop z fuel)
        as (l & -> & _); [lia|done|by right|done].
    - rewrite drain_created_overflow by (done || lia). done. }
  split_and!.
  - split; [|apply Hinvalid]. intros Hraise (z & Hstep & Hz).
    by apply (Hlin z Hstep Hz).
  - split; [|apply Hinvalid]. intros Hraise (z & Hstep & Hz).
    by apply (Hexp z Hstep Hz).
  - intros z -> Hz. cbn in Hfuel.
    by apply drain_created_valid.
  - intros z -> Hz Hstart. cbn in Hfuel.
    by apply drain_created_valid.
  - intros z -> Hz H0. by apply drain_created_zero_start.
  - intros z -> Hz. by apply drain_created_overflow.
Qed.

Lemma schedule_raises_iff_invalid_step_witness :
  (∃ l : list float64,
     list_of_call (fun x => x) (fun x => x) 4
       (decrease_expo 5 (PyInt 3) 1) = Some (Ok l)
     ∧ length l = 3%nat)
  ∧ list_of_call (fun x => x) (fun x => x) 4
      (decrease_expo 0 (PyInt 3) 1) = Some (Raise ZeroDivisionError).
Proof.
  assert (Hfuel : (pynum_range (PyInt 3) < 4)%nat) by (cbn; lia).
  assert (Hb : 1 ≤ 3 ≤ float_int_bound)
    by (pose proof float_int_bound_large; lia).
  split.
  - apply (proj1 (proj2 (proj2 (proj2
             (schedule_raises_iff_invalid_step (fun x => x) (fun x => x)
                5%float 1%float (PyInt 3) 4 Hfuel)))) 3 eq_refl Hb).
    right. by vm_compute.
  - apply (proj1 (proj2 (proj2 (proj2 (proj2
             (schedule_raises_iff_invalid_step (fun x => x) (fun x => x)
                0%float 1%float (PyInt 3) 4 Hfuel))))) 3 eq_refl).
    + lia.
    + by vm_compute.
Defined.

(** X3. For an integer [step >= 2] (small enough for [step - 1] to be
    converted to a float) and a [start] that is not zero, iterating
    [decrease_expo start step stop] gives exactly [step] floats, the one at
    position [k] being the binary64 value of
    [start * exp (coef * k)] with [coef = log (stop / start) / (step - 1)],
    every operation rounding.  For [step = 1] the only value is [start]. *)
Theorem decrease_expo_progression (np_log np_exp : float64 → float64)
    (start stop : float64) :
  (∀ (step : Z) (fuel : nat),
     2 ≤ step ≤ float_int_bound → (Z.to_nat step < fuel)%nat →
     (start =? 0)%float = false →
     ∃ (l : list float64) (coef : float64),
       list_of_call np_log np_exp fuel (decrease_expo start (PyInt step) stop)
       = Some (Ok l)
       ∧ coef = (np_log (stop / start) / float64_of_Z (step - 1))%float
       ∧ length l = Z.to_nat step
       ∧ (∀ k, (k < Z.to_nat step)%nat →
               l !! k
               = Some (start * np_exp (coef * float64_of_Z (Z.of_nat k)))%float))
  ∧ (∀ fuel, (2 ≤ fuel)%nat →
       list_of_call np_log np_exp fuel (decrease_expo start (PyInt 1) stop)
       = Some (Ok [start])).
Proof.
  split.
  - intros step fuel Hstep Hfuel H0.
    set (coef := (np_log (stop / start) / float64_of_Z (step - 1))%float).
    exists (expo_term np_exp start coef <$> seq 0 (Z.to_nat step)), coef.
    split_and!.
    + cbn [list_of_call decrease_expo].
      by rewrite (drain_created_loop np_log np_exp Expo start step stop coef)
        by (done || by apply schedule_coef_expo).
    + done.
    + by rewrite length_fmap, length_seq.
    + intros k Hlt. by rewrite list_lookup_fmap, lookup_seq_lt by done.
  - intros fuel Hfuel. by apply drain_created_single.
Qed.

Lemma decrease_expo_progression_witness :
  ∃ l : list float64,
    list_of_call (fun x => x - 1)%float (fun x => x + 1)%float 4
      (decrease_expo 8 (PyInt 3) 1) = Some (Ok l)
    ∧ length l = 3%nat
    ∧ l !! 2%nat = Some 1%float.
Proof.
  destruct (proj1 (decrease_expo_progression
                     (fun x => x - 1)%float (fun x => x + 1)%float
                     8%float 1%float) 3 4%nat)
    as (l & coef & Hl & Hcoef & Hlen & Hk).
  - pose proof float_int_bound_large. lia.
  - cbn. lia.
  - by vm_compute.
  - exists l. split_and!; [exact Hl|exact Hlen|].
    rewrite (Hk 2%nat) by (cbn; lia). rewrite Hcoef. by vm_compute.
Defined.

(** ** Distributor *)

Lemma distribute_loop_missing (l : list Z) (um : gmap Z (list nat)) (d : nat) :
  Exists (fun b => um !! b = None) l →
  distribute_loop um d l = Raise KeyError.
Proof.
  revert um d. induction l as [|b r IH]; intros um d Hex.
  - by apply Exists_nil in Hex.
  - cbn [distribute_loop]. destruct (um !! b) as [ms|] eqn:Hb; [|done].
    apply IH. apply Exists_cons in Hex as [Hex|Hex]; [congruence|].
    eapply Exists_impl; [exact Hex|]. intros b' Hb'. cbn in *.
    rewrite lookup_insert_ne; [done|congruence].
Qed.

Lemma elem_of_positions (k : Z) (l : list Z) (i : nat) :
  i ∈ positions k l ↔ l !! i = Some k.
Proof.
  unfold positions. rewrite list_elem_of_filter, elem_of_seq.
  split; [tauto|]. intros Hi. split; [done|].
  apply lookup_lt_Some in Hi. lia.
Qed.

Lemma distribute_in_range (bmu_idx : list Z) (n_units : Z) :
  Forall (fun b => 0 ≤ b < n_units) bmu_idx →
  ∃ m : gmap Z (list nat),
    distribute bmu_idx n_units = Ok m
    ∧ ∀ k, m !! k = if decide (0 ≤ k < n_units)
                    then Some (positions k bmu_idx) else None.
Proof.
  intros Hall.
  destruct (distribute_loop_spec bmu_idx (empty_units n_units) 0)
    as (m & Hm & Hlook).
  { eapply Forall_impl; [exact Hall|]. intros b Hb. cbn.
    rewrite empty_units_lookup, decide_True by done. eauto. }
  exists m. split; [done|]. intros k.
  rewrite Hlook, empty_units_lookup.
  destruct (decide (0 ≤ k < n_units)); cbn; [|done].
  by rewrite positions_occurrences.
Qed.

Lemma distribute_out_of_range (bmu_idx : list Z) (n_units : Z) :
  ¬ Forall (fun b => 0 ≤ b < n_units) bmu_idx →
  distribute bmu_idx n_units = Raise KeyError.
Proof.
  intros Hnot. apply distribute_loop_missing.
  apply not_Forall_Exists in Hnot; [|apply _].
  eapply Exists_impl; [exact Hnot|]. intros b Hb. cbn in *.
  by rewrite empty_units_lookup, decide_False.
Qed.

(** X5. [distribute] raises [KeyError] iff some element of [bmu_idx] lies
    outside [[0, n_units)], and returns a mapping otherwise.  The units are
    the keys of a dictionary, not positions in a list: a negative index does
    not count from the end, it raises as well. *)
Theorem distribute_key_error_iff (bmu_idx : list Z) (n_units : Z) :
  (distribute bmu_idx n_units = Raise KeyError
   ↔ ∃ b, b ∈ bmu_idx ∧ ¬ (0 ≤ b < n_units))
  ∧ ((∃ m, distribute bmu_idx n_units = Ok m)
     ↔ Forall (fun b => 0 ≤ b < n_units) bmu_idx)
  ∧ (∀ b, b ∈ bmu_idx → b < 0 → distribute bmu_idx n_units = Raise KeyError).
Proof.
  assert (Hcases : ∀ P : Prop, Forall (fun b => 0 ≤ b < n_units) bmu_idx
                               ∨ ¬ Forall (fun b => 0 ≤ b < n_units) bmu_idx).
  { intros _. destruct (decide (Forall (fun b => 0 ≤ b < n_units) bmu_idx));
      [by left|by right]. }
  split_and!.
  - split.
    + intros Hraise. destruct (Hcases True) as [Hall|Hnot].
      * destruct (distribute_in_range _ _ Hall) as (m & Hm & _). congruence.
      * apply not_Forall_Exists in Hnot; [|apply _].
        apply Exists_exists in Hnot as (b & Hb & Hout). eauto.
    + intros (b & Hb & Hout). apply distribute_out_of_range.
      intros Hall. rewrite Forall_forall in Hall. by apply Hout, Hall.
  - split.
    + intros [m Hm]. destruct (Hcases True) as [Hall|Hnot]; [done|].
      rewrite (distribute_out_of_range _ _ Hnot) in Hm. done.
    + intros Hall. destruct (distribute_in_range _ _ Hall) as (m & Hm & _).
      eauto.
  - intros b Hb Hneg. apply distribute_out_of_range.
    intros Hall. rewrite Forall_forall in Hall. specialize (Hall b Hb). lia.
Qed.

(** X6. When [distribute] returns, the lists of the mapping partition the
    sample positions: the sample at position [i] is listed under the unit
    [bmu_idx[i]], under no other unit, and no list repeats a position. *)
Theorem distribute_partitions_samples (bmu_idx : list Z) (n_units : Z)
    (m : gmap Z (list nat)) :
  distribute bmu_idx n_units = Ok m →
  (∀ i b, bmu_idx !! i = Some b → ∃ ms, m !! b = Some ms ∧ i ∈ ms)
  ∧ (∀ k ms i, m !! k = Some ms → i ∈ ms → bmu_idx !! i = Some k)
  ∧ (∀ k ms, m !! k = Some ms → NoDup ms)
  ∧ (∀ k ms i, m !! k = Some ms → i ∈ ms → (i < length bmu_idx)%nat).
Proof.
  intros Hm.
  assert (Hall : Forall (fun b => 0 ≤ b < n_units) bmu_idx).
  { destruct (decide (Forall (fun b => 0 ≤ b < n_units) bmu_idx)); [done|].
    rewrite distribute_out_of_range in Hm by done. done. }
  destruct (distribute_in_range _ _ Hall) as (m' & Hm' & Hlook).
  assert (m' = m) as -> by congruence.
  assert (Hms : ∀ k ms, m !! k = Some ms → ms = positions k bmu_idx).
  { intros k ms Hk. rewrite Hlook in Hk. case_decide; congruence. }
  split_and!.
  - intros i b Hb. exists (positions b bmu_idx). split.
    + rewrite Hlook, decide_True; [done|].
      rewrite Forall_forall in Hall. apply Hall.
      by eapply list_elem_of_lookup_2.
    + by apply elem_of_positions.
  - intros k ms i Hk Hi. rewrite (Hms k ms Hk) in Hi.
    by apply elem_of_positions.
  - intros k ms Hk. rewrite (Hms k ms Hk). unfold positions.
    apply NoDup_filter, NoDup_seq.
  - intros k ms i Hk Hi. rewrite (Hms k ms Hk) in Hi.
    apply elem_of_positions in Hi. by eapply lookup_lt_Some.
Qed.

Lemma distribute_partitions_samples_witness :
  ∃ ms, (<[0 := [1%nat]]> (<[1 := []]> (<[2 := [0%nat; 2%nat]]> ∅))
         : gmap Z (list nat)) !! 2 = Some ms ∧ 0%nat ∈ ms.
Proof.
  apply (proj1 (distribute_partitions_samples [2; 0; 2] 3 _
                  ltac:(vm_compute; reflexivity)) 0%nat 2).
  reflexivity.
Defined.

(** ** BestMatchFinder *)

Lemma best_match_ok (metric : list float → list float → float)
    (weights inp : ndarray float) (n_units n_feats : nat) :
  shape weights = [n_units; n_feats] →
  (0 < n_units)%nat →
  (shape inp = [n_feats] ∨ ∃ n, shape inp = [n; n_feats]) →
  ∃ (idx : list nat) (err : list float),
    best_match metric weights inp
    = Ok (NdArray [length (rows (atleast_2d inp))] idx,
          NdArray [length (rows (atleast_2d inp))] err)
    ∧ length idx = length (rows (atleast_2d inp))
    ∧ ∀ j i, idx !! j = Some i → (i < n_units)%nat.
Proof.
  intros HW Hpos Hinp.
  assert (HI : ∃ c, shape (atleast_2d inp) = [c; n_feats]).
  { unfold atleast_2d. destruct Hinp as [Hs|[n Hs]]; rewrite Hs; cbn; eauto. }
  destruct HI as [c HI].
  assert (Hlast : last (shape inp) = Some n_feats)
    by (destruct Hinp as [Hs|[n Hs]]; by rewrite Hs).
  assert (Hc := rows_length (atleast_2d inp) c n_feats HI).
  assert (Hr := rows_length weights n_units n_feats HW).
  destruct (reduce_axis0_cdist metric list_argmin
              (fun y l => argmin_scan 0 y 1 l)
              weights (atleast_2d inp) n_units n_feats c n_feats)
    as (idx & Hidx & Hil & Hi); [done..|].
  destruct (reduce_axis0_cdist metric list_min min_scan
              weights (atleast_2d inp) n_units n_feats c n_feats)
    as (err & Herr & Hel & He); [done..|].
  exists idx, err. split_and!.
  - unfold best_match, ndim. rewrite HW, Hlast, HI. cbn [length last].
    rewrite bool_decide_eq_false_2 by (intros Hne; by apply Hne).
    rewrite bool_decide_eq_false_2 by (intros Hne; by apply Hne).
    rewrite bool_decide_eq_false_2 by lia.
    unfold argmin_axis0, min_axis0. rewrite Hidx, Herr, Hc. done.
  - by rewrite Hc.
  - intros j i Hj.
    destruct (lookup_lt_is_Some_2 (rows (atleast_2d inp)) j) as [x Hx].
    { rewrite Hc, <- Hil. by eapply lookup_lt_Some. }
    destruct (Hi j x Hx) as (y & l & Hyl & Hij).
    assert (i = argmin_scan 0 y 1 l) as -> by congruence.
    destruct (list_argmin_min_spec y l) as (_ & _ & Hat & _).
    apply lookup_lt_Some in Hat.
    rewrite <- Hyl, length_fmap, Hr in Hat. done.
Qed.

(** X7. The indices that [best_match] returns are valid keys for
    [distribute]: handing them over with [n_units] set to the number of rows
    of [weights] never raises, and each sample is listed under the unit
    that was found for it. *)
Theorem best_match_then_distribute
    (metric : list float → list float → float)
    (weights inp : ndarray float) (n_units n_feats : nat) :
  shape weights = [n_units; n_feats] →
  (0 < n_units)%nat →
  (shape inp = [n_feats] ∨ ∃ n, shape inp = [n; n_feats]) →
  ∃ (idx : ndarray nat) (err : ndarray float) (m : gmap Z (list nat)),
    best_match metric weights inp = Ok (idx, err)
    ∧ distribute (Z.of_nat <$> data idx) (Z.of_nat n_units) = Ok m
    ∧ ∀ j i, data idx !! j = Some i →
        (i < n_units)%nat
        ∧ ∃ ms, m !! Z.of_nat i = Some ms ∧ j ∈ ms.
Proof.
  intros HW Hpos Hinp.
  destruct (best_match_ok metric weights inp n_units n_feats HW Hpos Hinp)
    as (idx & err & Hbm & _ & Hrange).
  destruct (distribute_in_range (Z.of_nat <$> idx) (Z.of_nat n_units))
    as (m & Hm & Hlook).
  { apply Forall_fmap, Forall_forall. intros i [j Hj]%list_elem_of_lookup.
    cbn. specialize (Hrange j i Hj). lia. }
  eexists _, _, m. split_and!; [exact Hbm|exact Hm|].
  cbn [data]. intros j i Hj. specialize (Hrange j i Hj). split; [done|].
  exists (positions (Z.of_nat i) (Z.of_nat <$> idx)). split.
  - rewrite Hlook, decide_True; [done|lia].
  - apply elem_of_positions. by rewrite list_lookup_fmap, Hj.
Qed.

Lemma best_match_then_distribute_witness :
  ∃ (idx : ndarray nat) (err : ndarray float) (m : gmap Z (list nat)),
    best_match cityblock
      (NdArray [2%nat; 1%nat] [0%Qc; 1%Qc])
      (NdArray [3%nat; 1%nat] [1%Qc; 0%Qc; 1%Qc]) = Ok (idx, err)
    ∧ distribute (Z.of_nat <$> data idx) 2 = Ok m.
Proof.
  destruct (best_match_then_distribute cityblock
              (NdArray [2%nat; 1%nat] [0%Qc; 1%Qc])
              (NdArray [3%nat; 1%nat] [1%Qc; 0%Qc; 1%Qc]) 2 1)
    as (idx & err & m & Hbm & Hm & _).
  - reflexivity.
  - lia.
  - right. by exists 3%nat.
  - exists idx, err, m. split; [exact Hbm|exact Hm].
Defined.

Lemma reduce_axis0_no_unit {B} (f : list float → result B)
    (a : ndarray float) (c : nat) :
  shape a = [0%nat; c] → reduce_axis0 f a = Raise ValueError.
Proof. intros Hs. unfold reduce_axis0. by rewrite Hs. Qed.

Lemma inp_shape_cases {A} (inp : ndarray A) :
  (0 < ndim inp)%nat →
  ∃ fi, last (shape inp) = Some fi
        ∧ ((shape inp = [fi] ∧ shape (atleast_2d inp) = [1%nat; fi])
           ∨ (∃ c, shape inp = [c; fi] ∧ shape (atleast_2d inp) = [c; fi])
           ∨ (2 < ndim (atleast_2d inp))%nat).
Proof.
  unfold ndim. intros Hnd.
  assert (Hat : atleast_2d inp
                = match shape inp with
                  | [] => NdArray [1%nat; 1%nat] (data inp)
                  | [k] => NdArray [1%nat; k] (data inp)
                  | _ => inp
                  end) by done.
  destruct (shape inp) as [|a [|b [|c l]]] eqn:HI; rewrite Hat.
  - cbn in Hnd. lia.
  - exists a. split; [done|]. by left.
  - exists b. split; [done|]. right; left. by exists a.
  - destruct (last (a :: b :: c :: l)) as [fi|] eqn:Hlast.
    + exists fi. split; [done|]. right; right. rewrite HI. cbn. lia.
    + by apply last_None in Hlast.
Qed.

(** X8. For an input of rank one or more, [best_match] returns exactly when
    [weights] is two-dimensional with at least one unit, the last extents of
    [weights] and [inp] agree, and [inp] has one or two dimensions.  In every
    other case it raises [ValueError]: this includes a [weights] table
    without any row, for which no guard exists but the minimum over the
    units cannot be taken. *)
Theorem best_match_returns_iff (metric : list float → list float → float)
    (weights inp : ndarray float) :
  (0 < ndim inp)%nat →
  ((∃ r, best_match metric weights inp = Ok r)
   ↔ ∃ n k, shape weights = [n; k] ∧ (0 < n)%nat
            ∧ (shape inp = [k] ∨ ∃ c, shape inp = [c; k]))
  ∧ ((¬ ∃ n k, shape weights = [n; k] ∧ (0 < n)%nat
               ∧ (shape inp = [k] ∨ ∃ c, shape inp = [c; k]))
     → best_match metric weights inp = Raise ValueError).
Proof.
  intros Hnd.
  assert (Hok : (∃ n k, shape weights = [n; k] ∧ (0 < n)%nat
                        ∧ (shape inp = [k] ∨ ∃ c, shape inp = [c; k]))
                → ∃ r, best_match metric weights inp = Ok r).
  { intros (n & k & HW & Hn & Hinp).
    destruct (best_match_ok metric weights inp n k HW Hn Hinp)
      as (idx & err & Hbm & _). eauto. }
  assert (Hcases : (∃ n k, shape weights = [n; k] ∧ (0 < n)%nat
                           ∧ (shape inp = [k] ∨ ∃ c, shape inp = [c; k]))
                   ∨ best_match metric weights inp = Raise ValueError).
  { unfold best_match.
    case_bool_decide as Hw; [by right|].
    assert (Hw' : ndim weights = 2%nat)
      by (destruct (decide (ndim weights = 2%nat)); [done|by destruct Hw]).
    unfold ndim in Hw'.
    destruct (shape weights) as [|n [|k [|? ?]]] eqn:HW; try done.
    cbn [last].
    destruct (inp_shape_cases inp Hnd) as (fi & Hlast & Hcase).
    rewrite Hlast.
    case_bool_decide as Hk; [by right|].
    assert (k = fi) as <-
      by (destruct (decide (k = fi)); [done|by destruct Hk]).
    destruct Hcase as [[Hinp HI]|[(c & Hinp & HI)|Hrank]].
    - rewrite bool_decide_eq_false_2 by (unfold ndim; rewrite HI; cbn; lia).
      destruct (decide (n = 0%nat)) as [->|Hn].
      + right. unfold argmin_axis0.
        rewrite (reduce_axis0_no_unit _ _ (nrows (atleast_2d inp))); [done|].
        unfold cdist, nrows. cbn [shape]. by rewrite HW.
      + left. exists n, k. split_and!; [done|lia|by left].
    - rewrite bool_decide_eq_false_2 by (unfold ndim; rewrite HI; cbn; lia).
      destruct (decide (n = 0%nat)) as [->|Hn].
      + right. unfold argmin_axis0.
        rewrite (reduce_axis0_no_unit _ _ (nrows (atleast_2d inp))); [done|].
        unfold cdist, nrows. cbn [shape]. by rewrite HW.
      + left. exists n, k. split_and!; [done|lia|right; eauto].
    - right. by rewrite bool_decide_eq_true_2. }
  split.
  - split; [|exact Hok].
    intros [r Hr]. destruct Hcases as [Hyes|Hraise]; [done|congruence].
  - intros Hno. by destruct Hcases as [Hyes|Hraise].
Qed.

Lemma best_match_returns_iff_witness :
  best_match cityblock (NdArray [2%nat] [0%Qc; 0%Qc])
                       (NdArray [2%nat] [0%Qc; 0%Qc])
  = Raise ValueError.
Proof.
  apply (proj2 (best_match_returns_iff cityblock
                  (NdArray [2%nat] [0%Qc; 0%Qc])
                  (NdArray [2%nat] [0%Qc; 0%Qc]) ltac:(cbn; lia))).
  intros (n & k & Hs & _). discriminate Hs.
Defined.

(** ** Scaler *)


(** ** WeightInitializer: the 'rnd' strategy *)

Lemma float_of_Z_le (a b : Z) : a ≤ b → (float_of_Z a ≤ float_of_Z b)%Qc.
Proof.
  intros Hab. unfold float_of_Z, Qcle. cbn. rewrite !Qred_correct.
  unfold Qle. cbn. lia.
Qed.

Lemma table_column (m : matrix float) (k j : nat) :
  Forall (fun row => length row = k) m → (j < k)%nat →
  length (omap (fun row : list float => row !! j) m) = length m
  ∧ ∀ i row, m !! i = Some row →
      omap (fun row : list float => row !! j) m !! i = row !! j.
Proof.
  intros Hrect Hj. induction Hrect as [|row m' Hrow Hrest [IHl IHi]].
  - split; [done|]. intros i row Hi. done.
  - destruct (lookup_lt_is_Some_2 row j) as [x Hx]; [lia|].
    assert (Hcons : omap (fun row : list float => row !! j) (row :: m')
                    = x :: omap (fun row : list float => row !! j) m')
      by (simpl; by rewrite Hx).
    rewrite Hcons. split; [cbn [length]; by rewrite IHl|].
    intros [|i] row' Hi; [by simplify_eq/=|]. by apply IHi.
Qed.

Lemma table_reduce_ok (f : list float → result float)
    (g : float → list float → float) (m : matrix float) (k : nat) :
  Forall (fun row => length row = k) m → m ≠ [] →
  (∀ y l, f (y :: l) = Ok (g y l)) →
  ∃ out, table_reduce f m = Ok out
         ∧ length out = k
         ∧ ∀ j, (j < k)%nat →
             ∃ y l, omap (fun row : list float => row !! j) m = y :: l
                    ∧ out !! j = Some (g y l).
Proof.
  intros Hrect Hne Hf.
  set (h := fun j => match omap (fun row : list float => row !! j) m with
                     | [] => g 0%Qc []
                     | y :: l => g y l
                     end).
  assert (Hcol : ∀ j, (j < k)%nat →
            ∃ y l, omap (fun row : list float => row !! j) m = y :: l).
  { intros j Hj. destruct (table_column m k j Hrect Hj) as [Hl _].
    destruct (omap _ m) as [|y l]; [|eauto].
    destruct m; [done|cbn in Hl; lia]. }
  exists (h <$> seq 0 k). split_and!.
  - assert (Htr : table_reduce f m
                  = mapM (fun j => f (omap (fun row : list float => row !! j)
                                           m)) (seq 0 k)).
    { clear -Hrect Hne. destruct m as [|r m']; [done|].
      apply Forall_cons in Hrect as [Hr _]. unfold table_reduce.
      by rewrite Hr. }
    rewrite Htr. apply mapM_ok. intros j Hj%elem_of_seq.
    destruct (Hcol j) as (y & l & Hyl); [lia|].
    unfold h. rewrite Hyl. apply Hf.
  - by rewrite length_fmap, length_seq.
  - intros j Hj. destruct (Hcol j Hj) as (y & l & Hyl).
    exists y, l. split; [done|].
    rewrite list_lookup_fmap, lookup_seq_lt by done. cbn.
    unfold h. by rewrite Hyl.
Qed.

Lemma column_stack_ok (cols : list (list float)) (n : nat) :
  cols ≠ [] → Forall (fun col => length col = n) cols →
  ∃ w, column_stack cols = Ok w
       ∧ length w = n
       ∧ ∀ i row, w !! i = Some row →
           length row = length cols
           ∧ ∀ j col, cols !! j = Some col → row !! j = col !! i.
Proof.
  intros Hne Hrect.
  assert (Hcs : column_stack cols
                = Ok ((fun i => omap (fun col : list float => col !! i) cols)
                        <$> seq 0 n)).
  { clear -Hne Hrect. destruct cols as [|c cs]; [done|].
    apply Forall_cons in Hrect as [Hc Hcs]. unfold column_stack.
    rewrite forallb_length_eq, Hc; [done|].
    eapply Forall_impl; [exact Hcs|]. intros x Hx. cbn in *. lia. }
  eexists. split_and!; [exact Hcs| |].
  - by rewrite length_fmap, length_seq.
  - intros i row Hrow.
    apply list_lookup_fmap_Some in Hrow as (i' & -> & Hi).
    apply lookup_seq in Hi as [-> Hi]. cbn in *.
    apply (table_column cols n i Hrect). lia.
Qed.

Section SampleRndFacts.
Context {S : Type} `{RandomSource S} `{UniformSource S}.
Hypothesis Huniform : uniform_contract.

Lemma draw_columns_ok (data_limits : matrix float) (n_units : nat) (s : S) :
  Forall (fun row => ∃ lo hi, row = [lo; hi] ∧ (lo ≤ hi)%Qc) data_limits →
  ∃ cols, (draw_columns data_limits n_units s).1 = Ok cols
          ∧ Forall2 (fun row col =>
                       ∃ lo hi, row = [lo; hi] ∧ length col = n_units
                                ∧ Forall (fun x => (lo ≤ x)%Qc ∧ (x ≤ hi)%Qc)
                                         col)
                    data_limits cols.
Proof.
  intros Hall. revert s.
  induction Hall as [|row rest (lo & hi & -> & Hle) _ IH]; intros s.
  - exists []. split; [done|constructor].
  - cbn [draw_columns].
    destruct (Huniform lo hi n_units s Hle) as [Hlen Hin].
    destruct (uniform lo hi n_units s) as [col s1]. cbn [fst] in Hlen, Hin.
    destruct (IH s1) as (cols & Hcols & Hrel).
    destruct (draw_columns rest n_units s1) as [r s2]. cbn [fst] in Hcols.
    subst r. exists (col :: cols). split; [done|].
    constructor; [|done]. eauto 6.
Qed.
End SampleRndFacts.

Section SampleRndData.
Context {S : Type} `{RandomSource S} `{UniformSource S}.
Hypothesis Huniform : uniform_contract.

(** X12. Given a non-empty data table with [k >= 1] columns, ['rnd'] returns
    [n_rows * n_cols] weight vectors of [k] entries, the entry for feature
    [j] lying between the least and the greatest value of column [j] of the
    data.  The number of features comes from the data: the [n_feats] of
    [dims] is not read on this path.  (The random source is assumed to draw
    uniform values within the bounds it is given.) *)
Theorem sample_rnd_within_data_range (n_rows n_cols n_feats : nat)
    (data : matrix float) (k : nat) (s : S) :
  data ≠ [] → Forall (fun row => length row = k) data → (1 ≤ k)%nat →
  ∃ w : matrix float,
    (sample_rnd (n_rows, n_cols, n_feats) (Some data) s).1 = Ok w
    ∧ length w = (n_rows * n_cols)%nat
    ∧ ∀ i row, w !! i = Some row →
        length row = k
        ∧ ∀ j x, row !! j = Some x →
            ∃ lo hi,
              least lo (omap (fun r : list float => r !! j) data)
              ∧ greatest hi (omap (fun r : list float => r !! j) data)
              ∧ (lo ≤ x)%Qc ∧ (x ≤ hi)%Qc.
Proof.
  intros Hne Hrect Hk.
  destruct (table_reduce_ok list_min min_scan data k Hrect Hne)
    as (mins & Hmins & Hminl & Hminj); [done|].
  destruct (table_reduce_ok list_max max_scan data k Hrect Hne)
    as (maxs & Hmaxs & Hmaxl & Hmaxj); [done|].
  set (limits := zip_with (fun a b : float => [a; b]) mins maxs).
  assert (Hlim : ∀ j row, limits !! j = Some row →
            ∃ y l, omap (fun r : list float => r !! j) data = y :: l
                   ∧ row = [min_scan y l; max_scan y l]).
  { intros j row Hrow. unfold limits in Hrow.
    apply lookup_zip_with_Some in Hrow as (a & b & -> & Ha & Hb).
    assert (Hj : (j < k)%nat) by (rewrite <- Hminl; by eapply lookup_lt_Some).
    destruct (Hminj j Hj) as (y & l & Hyl & Hmin).
    destruct (Hmaxj j Hj) as (y' & l' & Hyl' & Hmax).
    rewrite Hyl in Hyl'. injection Hyl' as <- <-.
    exists y, l. split; [done|]. congruence. }
  assert (Hlen : length limits = k).
  { unfold limits. rewrite length_zip_with. lia. }
  destruct (draw_columns_ok Huniform limits (n_rows * n_cols) s)
    as (cols & Hcols & Hrel).
  { apply Forall_lookup. intros j row Hrow.
    destruct (Hlim j row Hrow) as (y & l & Hyl & ->).
    exists (min_scan y l), (max_scan y l). split; [done|].
    destruct (min_scan_spec l y) as [_ Hle].
    destruct (max_scan_spec l y) as [Hin _]. by apply Hle. }
  assert (Hcl : length cols = k)
    by (rewrite <- Hlen; symmetry; by eapply Forall2_length).
  destruct (column_stack_ok cols (n_rows * n_cols)) as (w & Hw & Hwl & Hwi).
  { destruct cols; [cbn in Hcl; lia|done]. }
  { apply Forall_lookup. intros j col Hcol.
    destruct (Forall2_lookup_r _ _ _ _ _ Hrel Hcol)
      as (row & _ & lo & hi & _ & Hl & _). done. }
  exists w. split_and!.
  - unfold sample_rnd. rewrite Hmins. cbn [mbind result_bind].
    rewrite Hmaxs. cbn [mbind result_bind]. fold limits.
    destruct (draw_columns limits (n_rows * n_cols) s) as [r s1].
    cbn [fst] in Hcols. subst r. cbn [mbind result_bind fst]. done.
  - done.
  - intros i row Hrow. destruct (Hwi i row Hrow) as [Hrl Hrj].
    split; [lia|]. intros j x Hx.
    destruct (lookup_lt_is_Some_2 cols j) as [col Hcol].
    { rewrite <- Hrl. by eapply lookup_lt_Some. }
    rewrite (Hrj j col Hcol) in Hx.
    destruct (Forall2_lookup_r _ _ _ _ _ Hrel Hcol)
      as (lim & Hlimj & lo & hi & -> & _ & Hbounds).
    destruct (Hlim j _ Hlimj) as (y & l & Hyl & Heq).
    injection Heq as -> ->.
    exists (min_scan y l), (max_scan y l). rewrite Hyl.
    rewrite Forall_forall in Hbounds.
    destruct (Hbounds x) as [Hlo Hhi]; [by eapply list_elem_of_lookup_2|].
    split_and!; [apply min_scan_spec|apply max_scan_spec|done|done].
Qed.
End SampleRndData.

Lemma replay_uniform_contract : @uniform_contract replay replay_uniform.
Proof.
  intros low high size s Hle. cbn. split.
  - by rewrite length_replicate.
  - apply Forall_replicate. split; [apply Qcle_refl|done].
Qed.

Lemma sample_rnd_within_data_range_witness :
  ∃ w : matrix float,
    (sample_rnd (2%nat, 3%nat, 7%nat) (Some square_data)
                (Replay low_diagonal [])).1 = Ok w
    ∧ length w = 6%nat.
Proof.
  destruct (sample_rnd_within_data_range replay_uniform_contract
              2 3 7 square_data 2 (Replay low_diagonal []))
    as (w & Hw & Hlen & _).
  - discriminate.
  - repeat constructor.
  - lia.
  - exists w. split; [exact Hw|exact Hlen].
Defined.

Lemma sorted_pair (row : list Z) :
  length row = 2%nat → Forall (fun z => -10 ≤ z < 10) row →
  ∃ lo hi, merge_sort Z.le row = [lo; hi] ∧ lo ≤ hi
           ∧ -10 ≤ lo ∧ hi < 10.
Proof.
  intros Hlen Hrange.
  assert (Hperm := merge_sort_Permutation Z.le row).
  assert (Hsorted : StronglySorted Z.le (merge_sort Z.le row))
    by (apply StronglySorted_merge_sort; apply _).
  assert (Hl : length (merge_sort Z.le row) = 2%nat) by (by rewrite Hperm).
  rewrite <- Hperm in Hrange.
  destruct (merge_sort Z.le row) as [|lo [|hi [|? ?]]]; try done.
  exists lo, hi. split; [done|].
  apply StronglySorted_inv in Hsorted as [_ Hlo].
  apply Forall_cons in Hlo as [Hle _].
  apply Forall_cons in Hrange as [Hr1 Hr2].
  apply Forall_cons in Hr2 as [Hr2 _]. lia.
Qed.

Section SampleRndDefault.
Context {S : Type} `{RandomSource S} `{UniformSource S}.
Hypothesis Huniform : uniform_contract.
Hypothesis Hrandint : randint_contract.

(** X13. Without data, ['rnd'] draws for each of the [n_feats >= 1] features
    two integer bounds in [[-10, 10)], puts them in order, and samples
    between them: it returns [n_rows * n_cols] weight vectors of [n_feats]
    entries, all of them between -10 and 9.  (The random source is assumed
    to respect the shapes and bounds it is given.) *)
Theorem sample_rnd_default_range (n_rows n_cols n_feats : nat) (s : S) :
  (1 ≤ n_feats)%nat →
  ∃ w : matrix float,
    (sample_rnd (n_rows, n_cols, n_feats) None s).1 = Ok w
    ∧ length w = (n_rows * n_cols)%nat
    ∧ ∀ i row, w !! i = Some row →
        length row = n_feats
        ∧ ∀ x, x ∈ row →
            (float_of_Z (-10) ≤ x)%Qc ∧ (x ≤ float_of_Z 9)%Qc.
Proof.
  intros Hfeats. unfold sample_rnd.
  destruct (Hrandint (-10) 10 n_feats 2%nat s) as [Hdl Hdrows]; [lia|].
  destruct (randint (-10) 10 n_feats 2%nat s) as [drawn s1].
  cbn [fst] in Hdl, Hdrows.
  set (limits := (fun row => float_of_Z <$> merge_sort Z.le row) <$> drawn).
  assert (Hlim : ∀ j row, limits !! j = Some row →
            ∃ lo hi, row = [float_of_Z lo; float_of_Z hi]
                     ∧ lo ≤ hi ∧ -10 ≤ lo ∧ hi < 10).
  { intros j row Hrow. unfold limits in Hrow.
    apply list_lookup_fmap_Some in Hrow as (zs & -> & Hzs).
    rewrite Forall_lookup in Hdrows.
    destruct (Hdrows j zs Hzs) as [Hl Hr].
    destruct (sorted_pair zs Hl Hr) as (lo & hi & -> & Hle & Hlo & Hhi).
    exists lo, hi. done. }
  destruct (draw_columns_ok Huniform limits (n_rows * n_cols) s1)
    as (cols & Hcols & Hrel).
  { apply Forall_lookup. intros j row Hrow.
    destruct (Hlim j row Hrow) as (lo & hi & -> & Hle & _).
    exists (float_of_Z lo), (float_of_Z hi). split; [done|].
    by apply float_of_Z_le. }
  assert (Hll : length limits = n_feats)
    by (unfold limits; by rewrite length_fmap).
  assert (Hcl : length cols = n_feats)
    by (rewrite <- Hll; symmetry; by eapply Forall2_length).
  destruct (column_stack_ok cols (n_rows * n_cols)) as (w & Hw & Hwl & Hwi).
  { destruct cols; [cbn in Hcl; lia|done]. }
  { apply Forall_lookup. intros j col Hcol.
    destruct (Forall2_lookup_r _ _ _ _ _ Hrel Hcol)
      as (row & _ & lo & hi & _ & Hl & _). done. }
  exists w. split_and!.
  - destruct (draw_columns limits (n_rows * n_cols) s1) as [r s2].
    cbn [fst] in Hcols. subst r. cbn [mbind result_bind fst]. done.
  - done.
  - intros i row Hrow. destruct (Hwi i row Hrow) as [Hrl Hrj].
    split; [lia|]. intros x [j Hx]%list_elem_of_lookup.
    destruct (lookup_lt_is_Some_2 cols j) as [col Hcol].
    { rewrite <- Hrl. by eapply lookup_lt_Some. }
    rewrite (Hrj j col Hcol) in Hx.
    destruct (Forall2_lookup_r _ _ _ _ _ Hrel Hcol)
      as (lim & Hlimj & lo & hi & -> & _ & Hbounds).
    destruct (Hlim j _ Hlimj) as (zlo & zhi & Heq & Hle & Hlo & Hhi).
    injection Heq as -> ->.
    rewrite Forall_forall in Hbounds.
    destruct (Hbounds x) as [Hxl Hxh]; [by eapply list_elem_of_lookup_2|].
    split.
    + eapply Qcle_trans; [|exact Hxl]. apply float_of_Z_le. lia.
    + eapply Qcle_trans; [exact Hxh|]. apply float_of_Z_le. lia.
Qed.
End SampleRndDefault.

Lemma sample_rnd_default_range_witness :
  ∃ w : matrix float,
    (sample_rnd (2%nat, 2%nat, 3%nat) None (Replay low_diagonal [])).1 = Ok w
    ∧ length w = 4%nat.
Proof.
  destruct (sample_rnd_default_range replay_uniform_contract
              replay_randint_contract 2 2 3 (Replay low_diagonal []))
    as (w & Hw & Hlen & _).
  - lia.
  - exists w. split; [exact Hw|exact Hlen].
Defined.

(** ** WeightInitializer: the 'pca' strategy *)















Section SamplePcaFacts.
Context {S : Type} `{RandomSource S}.
Variable svd : matrix float → matrix float * list float * matrix float.
Variable argsort : list float → list nat.

End SamplePcaFacts.


(** ** WeightInitializer: the 'hist' strategy *)

Section SampleHistFacts.
Context {S : Type} `{RandomSource S}.
Hypothesis Hdirichlet : dirichlet_contract.

(** X15. For [n_feats >= 1], ['hist'] never raises: it asks for one
    Dirichlet draw with all [n_feats] concentrations equal to 1 and returns
    it as it is, [n_rows * n_cols] histograms of [n_feats] bins that each
    sum to 1.  (The Dirichlet service is assumed to return rows that sum to
    1.) *)
Theorem sample_hist_histograms (n_rows n_cols n_feats : nat)
    (data : option (ndarray float)) (s : S) :
  (1 ≤ n_feats)%nat →
  ∃ m : matrix float,
    sample_hist (n_rows, n_cols, n_feats) data s
    = (Ok m, (dirichlet_rvs (replicate n_feats 1%Qc)
                            (n_rows * n_cols)%nat s).2)
    ∧ length m = (n_rows * n_cols)%nat
    ∧ Forall (fun row => length row = n_feats ∧ fsum row = 1%Qc) m.
Proof.
  intros Hn. unfold sample_hist.
  destruct (Hdirichlet (replicate n_feats 1%Qc) (n_rows * n_cols)%nat s)
    as [Hlen Hrows].
  { destruct n_feats; [lia|done]. }
  { apply Forall_replicate. reflexivity. }
  destruct (dirichlet_rvs _ _ s) as [m s1]. cbn [fst snd] in *.
  exists m. split_and!; [done|done|].
  eapply Forall_impl; [exact Hrows|]. intros row [Hl Hs].
  by rewrite length_replicate in Hl.
Qed.
End SampleHistFacts.

Lemma sample_hist_histograms_witness :
  ∃ m : matrix float,
    (sample_hist (2%nat, 2%nat, 3%nat) None (Replay low_diagonal [])).1 = Ok m
    ∧ length m = 4%nat.
Proof.
  destruct (sample_hist_histograms replay_dirichlet_contract 2 2 3 None
              (Replay low_diagonal []))
    as (m & Hm & Hlen & _).
  - lia.
  - exists m. split; [by rewrite Hm|exact Hlen].
Defined.
